(** * ebuspicloader: frame layout, exchange primitive and flashing sequence

    A shallow embedding of [src/tools/ebuspicloader.cpp].  The C integer
    types are modelled as [Z] with their wrap-around written out where the
    code stores into a narrower type ([uint8_t], [uint16_t]).  The serial
    link is modelled as an explicit state: the outcomes of the successive
    [poll]/[write] and [poll]/[read] calls are given as event lists, the
    bytes the device sends back as an input stream, and the bytes sent and
    the lines printed on [std::cerr] are recorded.  Time is not modelled:
    a timeout is an event, so the timeout arguments have no effect. *)

From Stdlib Require Import ZArith List String Ascii Bool Lia Sorted.
Import ListNotations.
Open Scope Z_scope.

(** ** Constants (copied from the generated bootloader and the tool) *)

Definition WRITE_FLASH_BLOCKSIZE : Z := 32.
Definition ERASE_FLASH_BLOCKSIZE : Z := 32.
Definition END_FLASH : Z := 0x4000.

Definition STX : Z := 0x55.

Definition READ_VERSION : Z := 0.
Definition READ_FLASH : Z := 1.
Definition WRITE_FLASH : Z := 2.
Definition ERASE_FLASH : Z := 3.
Definition READ_EE_DATA : Z := 4.
Definition WRITE_EE_DATA : Z := 5.
Definition READ_CONFIG : Z := 6.
Definition WRITE_CONFIG : Z := 7.
Definition CALC_CHECKSUM : Z := 8.
Definition RESET_DEVICE : Z := 9.
Definition CALC_CRC : Z := 10.

Definition COMMAND_SUCCESS : Z := 0x01.

Definition FRAME_HEADER_LEN : Z := 9.
Definition FRAME_MAX_LEN : Z := FRAME_HEADER_LEN + 2 * WRITE_FLASH_BLOCKSIZE.
Definition END_FLASH_BYTES : Z := END_FLASH * 2.
Definition END_BOOT : Z := 0x0400.
Definition END_BOOT_BYTES : Z := END_BOOT * 2.

(** The opcodes of the bootloader's command set. *)
Definition opcodes : list Z :=
  [READ_VERSION; READ_FLASH; WRITE_FLASH; ERASE_FLASH; READ_EE_DATA;
   WRITE_EE_DATA; READ_CONFIG; WRITE_CONFIG; CALC_CHECKSUM; RESET_DEVICE;
   CALC_CRC].

(** ** The frame: [frame_t], a packed struct overlaid on a byte buffer *)

Record frame := mkFrame {
  command : Z;          (* uint8_t *)
  data_length : Z;      (* uint16_t, little endian in the buffer *)
  EE_key_1 : Z;
  EE_key_2 : Z;
  address_L : Z;
  address_H : Z;
  address_U : Z;
  address_unused : Z;
  data : list Z         (* uint8_t data[2*WRITE_FLASH_BLOCKSIZE] *)
}.

(** The struct view written into [buffer] (a little-endian host). *)
Definition encode (f : frame) : list Z :=
  [command f; Z.land (data_length f) 0xff; Z.shiftr (data_length f) 8;
   EE_key_1 f; EE_key_2 f; address_L f; address_H f; address_U f;
   address_unused f] ++ data f.

(** The struct view read from [buffer]. *)
Definition decode (buf : list Z) : frame := {|
  command := nth 0 buf 0;
  data_length := Z.lor (nth 1 buf 0) (Z.shiftl (nth 2 buf 0) 8);
  EE_key_1 := nth 3 buf 0;
  EE_key_2 := nth 4 buf 0;
  address_L := nth 5 buf 0;
  address_H := nth 6 buf 0;
  address_U := nth 7 buf 0;
  address_unused := nth 8 buf 0;
  data := firstn (Z.to_nat (2 * WRITE_FLASH_BLOCKSIZE))
                 (skipn (Z.to_nat FRAME_HEADER_LEN) buf)
|}.

(** [memset(frame.buffer, 0, FRAME_MAX_LEN)]. *)
Definition zero_frame : frame :=
  mkFrame 0 0 0 0 0 0 0 0 (repeat 0 (Z.to_nat (2 * WRITE_FLASH_BLOCKSIZE))).

(** [memcpy(dst + pos, bytes, n)] on the buffer.  Bytes stored past the end
    of the 73-byte array are kept at the end of the list: they stand for the
    memory that follows the array. *)
Definition store (buf : list Z) (pos : Z) (bytes : list Z) : list Z :=
  firstn (Z.to_nat pos) buf ++ bytes
    ++ skipn (Z.to_nat pos + List.length bytes) buf.

(** ** The serial link *)

Record io := mkIo {
  wevs : list Z;          (* result of each poll/write: <0 error, 0 timeout,
                             >0 number of bytes the port accepts *)
  revs : list Z;          (* result of each poll/read: <0 error, 0 timeout,
                             >0 number of bytes the port delivers at most *)
  inp : list Z;           (* bytes sent by the device, not read yet *)
  out : list Z;           (* bytes written to the port *)
  errs : list string      (* lines printed on std::cerr *)
}.

(** [waitWrite] for [len] bytes: what it returns for one event.  An empty
    event list behaves as a poll that times out. *)
Definition write_result (w len : Z) : Z :=
  if w <=? 0 then w else Z.min w len.

(** [waitRead] for [len] bytes: what it returns for one event; [read]
    returns at most what is in the input stream (0 at its end). *)
Definition read_result (r len : Z) (input : list Z) : Z :=
  if r <=? 0 then r else Z.min (Z.min r len) (Z.of_nat (List.length input)).

Definition report (hideErrors : bool) (msg : string) (e : list string) :=
  if hideErrors then e else e ++ [msg].

Definition set_errs (s : io) (e : list string) : io :=
  mkIo (wevs s) (revs s) (inp s) (out s) e.

(** [waitWrite(fd, bytes, len, ...)]: consumes one write event; returns the
    value of [waitWrite], the remaining events and the bytes sent so far. *)
Definition waitWrite (ws o bytes : list Z) (len : Z) : Z * list Z * list Z :=
  match ws with
  | [] => (0, [], o)
  | w :: ws' =>
      let cnt := write_result w len in
      (cnt, ws', if 0 <? cnt then o ++ firstn (Z.to_nat cnt) bytes else o)
  end.

(** [waitRead(fd, data, len, ...)]: consumes one read event; returns the
    value of [waitRead], the bytes read, the remaining events and input. *)
Definition waitRead (rs i : list Z) (len : Z) : Z * list Z * list Z * list Z :=
  match rs with
  | [] => (0, [], [], i)
  | r :: rs' =>
      let cnt := read_result r len i in
      if 0 <? cnt then (cnt, firstn (Z.to_nat cnt) i, rs', skipn (Z.to_nat cnt) i)
      else (cnt, [], rs', i)
  end.

(** The loop of [sendReceiveFrame] that sends [buffer[pos..len)].
    [None]: every byte was sent; [Some r]: [sendReceiveFrame] returns [r]. *)
Fixpoint send_loop (ws o : list Z) (e : list string) (buf : list Z)
    (pos len : Z) (hideErrors : bool) {struct ws}
    : option Z * list Z * list Z * list string :=
  if pos <? len then
    match ws with
    | [] => (Some (-1), [], o, report hideErrors "write data timed out" e)
    | w :: ws' =>
        let '(cnt, _, o') :=
          waitWrite (w :: ws') o (skipn (Z.to_nat pos) buf) (len - pos) in
        if cnt <? 0 then
          (Some cnt, ws', o', report hideErrors "write data failed" e)
        else if cnt =? 0 then
          (Some (-1), ws', o', report hideErrors "write data timed out" e)
        else send_loop ws' o' e buf (pos + cnt) len hideErrors
    end
  else (None, ws, o, e).

(** The loop of [sendReceiveFrame] that reads the answer into the buffer:
    first the header, then the payload whose length is the header's
    [data_length] when [fixReceiveDataLen < 0], else [fixReceiveDataLen]. *)
Fixpoint recv_loop (rs i : list Z) (e : list string) (buf : list Z)
    (pos len fixReceiveDataLen : Z) (hideErrors : bool) {struct rs}
    : option Z * list Z * list Z * list string * list Z :=
  if pos <? len then
    match rs with
    | [] => (Some (-1), [], i, report hideErrors "read data timed out" e, buf)
    | r :: rs' =>
        let '(cnt, bytes, _, i') := waitRead (r :: rs') i (len - pos) in
        if cnt <? 0 then
          (Some cnt, rs', i', report hideErrors "read data failed" e, buf)
        else if cnt =? 0 then
          (Some (-1), rs', i', report hideErrors "read data timed out" e, buf)
        else
          let buf' := store buf pos bytes in
          let pos' := pos + cnt in
          let '(len', fix') :=
            if pos' =? FRAME_HEADER_LEN then
              ((if fixReceiveDataLen <? 0
                then len + data_length (decode buf')
                else len + fixReceiveDataLen), 0)
            else (len, fixReceiveDataLen) in
          recv_loop rs' i' e buf' pos' len' fix' hideErrors
    end
  else (None, rs, i, e, buf).

(** [sendReceiveFrame(fd, frame, sendDataLen, fixReceiveDataLen,
    responseTimeoutExtraMillis, hideErrors)] on [frame.buffer]: the value it
    returns and the buffer afterwards. *)
Definition sendReceiveFrame (buf : list Z) (sendDataLen fixReceiveDataLen
    responseTimeoutExtraMillis : Z) (hideErrors : bool) (s : io)
    : (Z * list Z) * io :=
  let '(cnt, ws1, o1) := waitWrite (wevs s) (out s) [STX] 1 in
  if cnt <? 0 then
    ((cnt, buf), mkIo ws1 (revs s) (inp s) o1
                   (report hideErrors "write sync failed" (errs s)))
  else if cnt =? 0 then
    ((cnt, buf), mkIo ws1 (revs s) (inp s) o1
                   (report hideErrors "write sync timed out" (errs s)))
  else
  let writeCommand := command (decode buf) in
  let len := FRAME_HEADER_LEN + sendDataLen in
  match send_loop ws1 o1 (errs s) buf 0 len hideErrors with
  | (Some r, ws2, o2, e2) => ((r, buf), mkIo ws2 (revs s) (inp s) o2 e2)
  | (None, ws2, o2, e2) =>
    let '(cnt, chs, rs3, i3) := waitRead (revs s) (inp s) 1 in
    let ch := hd STX chs in
    if cnt <? 0 then
      ((cnt, buf), mkIo ws2 rs3 i3 o2 (report hideErrors "read sync failed" e2))
    else if cnt =? 0 then
      ((-1, buf), mkIo ws2 rs3 i3 o2 (report hideErrors "read sync timed out" e2))
    else if negb (ch =? STX) then
      ((-1, buf), mkIo ws2 rs3 i3 o2 (report hideErrors "did not receive sync" e2))
    else
    match recv_loop rs3 i3 e2 buf 0 FRAME_HEADER_LEN fixReceiveDataLen hideErrors with
    | (Some r, rs4, i4, e4, buf4) => ((r, buf4), mkIo ws2 rs4 i4 o2 e4)
    | (None, rs4, i4, e4, buf4) =>
      (* read away potential nonsense tail *)
      let '(_, _, rs5, i5) := waitRead rs4 i4 4 in
      if negb (command (decode buf4) =? writeCommand) then
        ((-1, buf4), mkIo ws2 rs5 i5 o2 (report hideErrors "unexpected answer" e4))
      else ((0, buf4), mkIo ws2 rs5 i5 o2 e4)
    end
  end.

(** ** A state monad over the serial link *)

Definition M (A : Type) : Type := io -> A * io.

Definition ret {A} (a : A) : M A := fun s => (a, s).

Definition bind {A B} (m : M A) (k : A -> M B) : M B :=
  fun s => let '(a, s') := m s in k a s'.

Notation "x <- c1 ;; c2" := (bind c1 (fun x => c2))
  (at level 61, c1 at next level, right associativity).

(** [std::cerr << msg << std::endl]. *)
Definition eprint (msg : string) : M unit :=
  fun s => (tt, set_errs s (errs s ++ [msg])).

(** [sendReceiveFrame] on a frame: the result and the frame afterwards. *)
Definition exchange (f : frame) (sendDataLen fixReceiveDataLen
    responseTimeoutExtraMillis : Z) (hideErrors : bool) : M (Z * frame) :=
  fun s =>
    let '((r, buf), s') :=
      sendReceiveFrame (encode f) sendDataLen fixReceiveDataLen
        responseTimeoutExtraMillis hideErrors s in
    ((r, decode buf), s').

(** [memcpy(frame.data, data, len)] into the zeroed data array. *)
Definition copy_data (len : Z) (src : list Z) : list Z :=
  firstn (Z.to_nat len) src
    ++ skipn (Z.to_nat len) (repeat 0 (Z.to_nat (2 * WRITE_FLASH_BLOCKSIZE))).

(** ** The command set *)

Definition writeConfig_frame (address len : Z) (d : list Z) : frame :=
  {| command := WRITE_CONFIG; data_length := len mod 65536;
     EE_key_1 := 0x55; EE_key_2 := 0xaa;
     address_L := Z.land address 0xff;
     address_H := Z.land (Z.shiftr address 8) 0xff;
     address_U := 0; address_unused := 0; data := copy_data len d |}.

Definition writeConfig (address len : Z) (d : list Z) : M Z :=
  rf <- exchange (writeConfig_frame address len d) len 1 50 false ;;
  let '(r, f) := rf in
  if negb (r =? 0) then ret r
  else if negb (nth 0 (data f) 0 =? COMMAND_SUCCESS) then ret (-1)
  else ret 0.

Definition writeFlash_frame (address len : Z) (d : list Z) : frame :=
  {| command := WRITE_FLASH; data_length := len mod 65536;
     EE_key_1 := 0x55; EE_key_2 := 0xaa;
     address_L := Z.land address 0xff;
     address_H := Z.land (Z.shiftr address 8) 0xff;
     address_U := 0; address_unused := 0; data := copy_data len d |}.

Definition writeFlash (address len : Z) (d : list Z) (hideErrors : bool) : M Z :=
  rf <- exchange (writeFlash_frame address len d) len 1 (len * 30) hideErrors ;;
  let '(r, f) := rf in
  if negb (r =? 0) then ret r
  else if negb (nth 0 (data f) 0 =? COMMAND_SUCCESS) then ret (-1)
  else ret 0.

Definition eraseFlash_frame (address len : Z) : frame :=
  {| command := ERASE_FLASH;
     data_length :=
       ((len + ERASE_FLASH_BLOCKSIZE - 1) / ERASE_FLASH_BLOCKSIZE) mod 65536;
     EE_key_1 := 0x55; EE_key_2 := 0xaa;
     address_L := Z.land address 0xff;
     address_H := Z.land (Z.shiftr address 8) 0xff;
     address_U := 0; address_unused := 0;
     data := data zero_frame |}.

Definition eraseFlash (address len : Z) : M Z :=
  let f := eraseFlash_frame address len in
  rf <- exchange f 0 1 (data_length f * 5) false ;;
  let '(r, f') := rf in
  if negb (r =? 0) then ret r
  else let st := nth 0 (data f') 0 in
  if negb (st =? COMMAND_SUCCESS) then ret (- st - 1)
  else ret 0.

Definition calcChecksum_frame (address len : Z) : frame :=
  {| command := CALC_CHECKSUM; data_length := len mod 65536;
     EE_key_1 := 0; EE_key_2 := 0;
     address_L := Z.land address 0xff;
     address_H := Z.land (Z.shiftr address 8) 0xff;
     address_U := 0; address_unused := 0;
     data := data zero_frame |}.

Definition calcChecksum (address len : Z) : M Z :=
  rf <- exchange (calcChecksum_frame address len) 0 2 (len * 30) false ;;
  let '(r, f) := rf in
  if negb (r =? 0) then ret r
  else ret (Z.lor (nth 0 (data f) 0) (Z.shiftl (nth 1 (data f) 0) 8)).

(** ** The firmware image *)

(** Modelled from the spec: the sparse image cursor of the intelhex reader
    (not part of src/), "a monotonic, address-ordered sequence of (address,
    byte-value) pairs" exposing [currentAddress()], [getData(&byte)],
    [incrementAddress()] and the bounds [startAddress()]/[endAddress()].
    A cursor is the list of pairs not consumed yet; [begin()] is the whole
    image. *)
Definition cursor := list (Z * Z).

Definition startAddress (img : cursor) : option Z :=
  match img with [] => None | (a, _) :: _ => Some a end.

Fixpoint endAddress (img : cursor) : option Z :=
  match img with
  | [] => None
  | [(a, _)] => Some a
  | _ :: r => endAddress r
  end.

Definition currentAddress (c : cursor) : option Z := option_map fst (hd_error c).
Definition getData (c : cursor) : option Z := option_map snd (hd_error c).
Definition incrementAddress (c : cursor) : cursor := tl c.

(** ** The flashing sequence [flashPic] *)

(** The parity pad value: [(pos&0x1) == 1 ? 0x3f : 0xff]. *)
Definition pad (pos : Z) : Z := if Z.land pos 1 =? 1 then 0x3f else 0xff.

(** The inner loop [for (pos = 0; pos < WRITE_FLASH_BLOCKSIZE; pos++,
    nextAddr++)]: fills [buf], clears [blank] when an image byte lands in
    the block and accumulates the 16-bit [checkSum].  Returns [buf], the
    cursor, [nextAddr], [blank] and [checkSum] afterwards. *)
Fixpoint fill_block (k : nat) (pos : Z) (c : cursor) (nextAddr : Z)
    (blank : bool) (checkSum : Z) : list Z * cursor * Z * bool * Z :=
  match k with
  | O => ([], c, nextAddr, blank, checkSum)
  | S k' =>
      let '(value, c', blank') :=
        match currentAddress c, getData c with
        | Some addr, Some v =>
            if addr =? nextAddr then (v, incrementAddress c, false)
            else (pad pos, c, blank)
        | _, _ => (pad pos, c, blank)
        end in
      let checkSum' :=
        (checkSum + Z.shiftl value (Z.land pos 1 * 8)) mod 65536 in
      let '(buf, c'', nextAddr', blank'', checkSum'') :=
        fill_block k' (pos + 1) c' (nextAddr + 1) blank' checkSum' in
      (value :: buf, c'', nextAddr', blank'', checkSum'')
  end.

(** Writing a non-blank block: once silently, and once more on failure. *)
Definition write_block (blockStart : Z) (buf : list Z) : M bool :=
  r1 <- writeFlash (blockStart / 2) WRITE_FLASH_BLOCKSIZE buf true ;;
  if r1 =? 0 then ret true else
  r2 <- writeFlash (blockStart / 2) WRITE_FLASH_BLOCKSIZE buf false ;;
  if r2 =? 0 then ret true else
  _ <- eprint "unable to write flash" ;;
  ret false.

(** The number of iterations of [while (blockStart < endAddr)] with
    [blockStart += WRITE_FLASH_BLOCKSIZE]. *)
Definition block_count (blockStart endAddr : Z) : nat :=
  Z.to_nat ((endAddr - blockStart + WRITE_FLASH_BLOCKSIZE - 1)
              / WRITE_FLASH_BLOCKSIZE).

(** The outer loop [while (blockStart < endAddr)], run for at most [n]
    iterations.  [None]: the run aborted; [Some] the cursor, [blockStart],
    [nextAddr] and [checkSum] after the loop. *)
Fixpoint program_blocks (n : nat) (c : cursor)
    (blockStart nextAddr checkSum endAddr : Z)
    : M (option (cursor * Z * Z * Z)) :=
  match n with
  | O => ret (Some (c, blockStart, nextAddr, checkSum))
  | S n' =>
      if blockStart <? endAddr then
        let '(buf, c', nextAddr', blank, checkSum') :=
          fill_block (Z.to_nat WRITE_FLASH_BLOCKSIZE) 0 c nextAddr true checkSum in
        ok <- (if blank then ret true else write_block blockStart buf) ;;
        if ok then
          program_blocks n' c' (blockStart + WRITE_FLASH_BLOCKSIZE) nextAddr'
            checkSum' endAddr
        else ret None
      else ret (Some (c, blockStart, nextAddr, checkSum))
  end.

(** The address range check of [flashPic]. *)
Definition invalid_range (startAddr endAddr : Z) : bool :=
  (startAddr <? END_BOOT_BYTES) || (END_FLASH_BYTES <=? endAddr)
  || (endAddr <? startAddr) || negb (Z.land startAddr 0xf =? 0).

(** [flashPic(fd)] on the parsed image ([None]: the file could not be
    opened or read without errors and warnings).  Progress output on
    [std::cout] is not modelled. *)
Definition flashPic (file : option cursor) : M bool :=
  match file with
  | None => _ <- eprint "unable to open or read file" ;; ret false
  | Some ih =>
    match startAddress ih, endAddress ih with
    | Some startAddr, Some endAddr =>
      if invalid_range startAddr endAddr then
        _ <- eprint "invalid address range" ;; ret false
      else
      let nextAddr := match currentAddress ih with Some a => a | None => 0 end in
      if negb (nextAddr =? END_BOOT_BYTES) then
        _ <- eprint "unexpected start address in file" ;; ret false
      else
      let blockStart := END_BOOT_BYTES in
      eraseRes <- eraseFlash (blockStart / 2) ((endAddr - blockStart) / 2 mod 65536) ;;
      if negb (eraseRes =? 0) then
        _ <- eprint "erasing flash failed" ;; ret false
      else
      res <- program_blocks (block_count blockStart endAddr) ih blockStart
               nextAddr 0 endAddr ;;
      match res with
      | None => ret false
      | Some (_, blockStart', _, checkSum) =>
        picSum <- calcChecksum (startAddr / 2 mod 65536)
                    ((blockStart' - startAddr) mod 65536) ;;
        if picSum <? 0 then ret false
        else if negb (picSum =? checkSum) then ret false
        else ret true
      end
    | _, _ => _ <- eprint "unable to read file" ;; ret false
    end
  end.

Definition readFlash_frame (address : Z) : frame :=
  {| command := READ_FLASH; data_length := 0x10;
     EE_key_1 := 0; EE_key_2 := 0;
     address_L := Z.land address 0xff;
     address_H := Z.land (Z.shiftr address 8) 0xff;
     address_U := 0; address_unused := 0;
     data := data zero_frame |}.

(** [readFlash(fd, address, ...)]: the result and the 16 bytes it stores
    into [storeData] (printing is not modelled). *)
Definition readFlash (address : Z) : M (Z * list Z) :=
  rf <- exchange (readFlash_frame address) 0 (-1) 0 false ;;
  let '(r, f) := rf in
  if negb (r =? 0) then ret (r, [])
  else ret (0, firstn 0x10 (data f)).

(** The checksum the outer loop of [flashPic] accumulates, computed from
    the image alone: the same blocks, with no device exchange. *)
Fixpoint blocks_checksum (n : nat) (c : cursor)
    (blockStart nextAddr checkSum endAddr : Z) : Z :=
  match n with
  | O => checkSum
  | S n' =>
      if blockStart <? endAddr then
        let '(_, c', nextAddr', _, checkSum') :=
          fill_block (Z.to_nat WRITE_FLASH_BLOCKSIZE) 0 c nextAddr true checkSum in
        blocks_checksum n' c' (blockStart + WRITE_FLASH_BLOCKSIZE) nextAddr'
          checkSum' endAddr
      else checkSum
  end.

(** The pad values of positions [pos], ..., [pos + k - 1]. *)
Fixpoint pad_block (k : nat) (pos : Z) : list Z :=
  match k with O => [] | S k' => pad pos :: pad_block k' (pos + 1) end.

(** A byte, and a frame whose [uint8_t]/[uint16_t] fields hold values of
    their types and whose data array has its 64 entries. *)
Definition is_byte (x : Z) : Prop := 0 <= x < 256.

Definition header_bytes (f : frame) : Prop :=
  is_byte (command f) /\ is_byte (EE_key_1 f) /\ is_byte (EE_key_2 f)
  /\ is_byte (address_L f) /\ is_byte (address_H f) /\ is_byte (address_U f)
  /\ is_byte (address_unused f)
  /\ List.length (data f) = Z.to_nat (2 * WRITE_FLASH_BLOCKSIZE).

(** ** Further commands and helpers of the tool *)

Definition MINOR_VERSION : Z := 0x08.
Definition MAJOR_VERSION : Z := 0x00.

(** [readVersion(fd, verbose)]; the device details it prints are not
    modelled. *)
Definition readVersion : M Z :=
  rf <- exchange (mkFrame READ_VERSION 0 0 0 0 0 0 0 (data zero_frame)) 0 16 0 false ;;
  let '(r, f) := rf in
  if negb (r =? 0) then ret r
  else if negb (nth 0 (data f) 0 =? MINOR_VERSION)
          || negb (nth 1 (data f) 0 =? MAJOR_VERSION) then
    _ <- eprint "unexpected version" ;; ret (-1)
  else ret 0.

Definition readConfig_frame (address len : Z) : frame :=
  {| command := READ_CONFIG; data_length := len mod 65536;
     EE_key_1 := 0; EE_key_2 := 0;
     address_L := Z.land address 0xff;
     address_H := Z.land (Z.shiftr address 8) 0xff;
     address_U := 0; address_unused := 0;
     data := data zero_frame |}.

(** [readConfig(fd, address, len, skipHigh, print, storeData)]: the result
    and the [len] bytes it copies to [storeData] (printing is not
    modelled). *)
Definition readConfig (address len : Z) : M (Z * list Z) :=
  rf <- exchange (readConfig_frame address len) 0 len 0 false ;;
  let '(r, f) := rf in
  if negb (r =? 0) then ret (r, [])
  else ret (0, firstn (Z.to_nat len) (data f)).

(** The value at address [a] of an image, if the image has one. *)
Fixpoint lookup (c : cursor) (a : Z) : option Z :=
  match c with
  | [] => None
  | (a', v) :: r => if a' =? a then Some v else lookup r a
  end.

(** Whether an image has an address in [lo, hi). *)
Definition has_addr_in (c : cursor) (lo hi : Z) : bool :=
  existsb (fun p => (lo <=? fst p) && (fst p <? hi)) c.

(** The outer loop of [calcFileChecksum]:
    [while (blockStart < END_FLASH_BYTES && nextAddr < END_FLASH_BYTES)],
    run for at most [n] iterations. *)
Fixpoint file_blocks (n : nat) (c : cursor) (blockStart nextAddr checkSum : Z) : Z :=
  match n with
  | O => checkSum
  | S n' =>
      if (blockStart <? END_FLASH_BYTES) && (nextAddr <? END_FLASH_BYTES) then
        let '(_, c', nextAddr', _, checkSum') :=
          fill_block (Z.to_nat WRITE_FLASH_BLOCKSIZE) 0 c nextAddr true checkSum in
        file_blocks n' c' (blockStart + WRITE_FLASH_BLOCKSIZE) nextAddr' checkSum'
      else checkSum
  end.

(** [calcFileChecksum(storeFirstBlock)] on the parsed image ([None]: the
    file could not be opened or read without errors and warnings).  The
    copy of the first 16 bytes to [storeFirstBlock], which only feeds the
    version printed by [printFileChecksum], is not modelled. *)
Definition calcFileChecksum (file : option cursor) : Z :=
  match file with
  | None => -1
  | Some ih =>
    match startAddress ih, endAddress ih with
    | Some startAddr, Some endAddr =>
      if invalid_range startAddr endAddr then -1
      else
      let nextAddr := match currentAddress ih with Some a => a | None => 0 end in
      if negb (nextAddr =? END_BOOT_BYTES) then -1
      else file_blocks (block_count END_BOOT_BYTES END_FLASH_BYTES) ih
             END_BOOT_BYTES nextAddr 0
    | _, _ => -1
    end
  end.

(** The 8 bytes [writeIpSettings] writes to the User ID words, from the
    options [setMacFromIp], [setIp], [setIpAddress] and [setMaskLen]. *)
Definition ip_config_data (setMacFromIp setIp : bool) (setIpAddress : list Z)
    (setMaskLen : Z) : list Z :=
  let c1 := if setMacFromIp then Z.land (Z.land 0x3f (Z.lnot 0x20)) 0xff else 0x3f in
  let c1' := Z.land (Z.lor (Z.land c1 (Z.lnot 0x1f)) (Z.land setMaskLen 0x1f)) 0xff in
  let ipb (i : nat) (d : Z) := if setIp then nth i setIpAddress 0 else d in
  [ipb 0%nat 0xff; c1'; ipb 1%nat 0xff; 0x3f; ipb 2%nat 0xff; 0x3f; ipb 3%nat 0xff; 0x3f].

(** [writeIpSettings(fd)]. *)
Definition writeIpSettings (setMacFromIp setIp : bool) (setIpAddress : list Z)
    (setMaskLen : Z) : M bool :=
  r <- writeConfig 0 8 (ip_config_data setMacFromIp setIp setIpAddress setMaskLen) ;;
  if negb (r =? 0) then _ <- eprint "failed" ;; ret false
  else ret true.

(** What [readIpSettings] derives from the User ID bytes [configData] and,
    when the MUI is used, the MUI bytes [mui]: the MAC address, the IP
    address, the mask length and whether it reports DHCP. *)
Definition ip_settings (configData mui : list Z) : list Z * list Z * Z * bool :=
  let useMUI := negb (Z.land (nth 1 configData 0) 0x20 =? 0) in
  let maskLen := Z.land (nth 1 configData 0) 0x1f in
  let ip := [nth 0 configData 0; nth 2 configData 0; nth 4 configData 0;
             nth 6 configData 0] in
  let mac :=
    if useMUI then [0xae; 0xb0; 0x53; nth 0 mui 0; nth 2 mui 0; nth 4 mui 0]
    else [0xae; 0xb0; 0x53; nth 2 configData 0; nth 4 configData 0;
          nth 6 configData 0] in
  let dhcp := (maskLen =? 0x1f)
              || (Z.lor (Z.lor (Z.lor (nth 0 ip 0) (nth 1 ip 0)) (nth 2 ip 0))
                        (nth 3 ip 0) =? 0) in
  (mac, ip, maskLen, dhcp).

(** Payload length the receive loop adds after the header. *)
Definition recv_payload_len (fx : Z) (hdr : list Z) : Z :=
  if fx <? 0 then data_length (decode hdr) else fx.

Definition resetDevice : M Z :=
  rf <- exchange (mkFrame RESET_DEVICE 0 0 0 0 0 0 0 (data zero_frame)) 0 1 0 false ;;
  let '(r, f) := rf in
  if negb (r =? 0) then ret r
  else let st := nth 0 (data f) 0 in
  if negb (st =? COMMAND_SUCCESS) then ret (- st - 1)
  else ret 0.

(** ** Command-line option parsing *)

Definition ULONG_MAX : Z := 2 ^ 64 - 1.

Definition is_space (ch : ascii) : bool :=
  let n := nat_of_ascii ch in ((n =? 32) || ((9 <=? n) && (n <=? 13)))%nat.

Definition digit_of (ch : ascii) : option Z :=
  let n := Z.of_nat (nat_of_ascii ch) in
  if (48 <=? n) && (n <=? 57) then Some (n - 48) else None.

Fixpoint skip_spaces (s : list ascii) : list ascii :=
  match s with
  | c :: r => if is_space c then skip_spaces r else s
  | [] => []
  end.

Fixpoint read_digits (s : list ascii) (acc : Z) (n : nat) : Z * nat * list ascii :=
  match s with
  | c :: r =>
      match digit_of c with
      | Some d => read_digits r (acc * 10 + d) (S n)
      | None => (acc, n, s)
      end
  | [] => (acc, n, [])
  end.

Definition strtoul10 (s : list ascii) : Z * list ascii :=
  let s1 := skip_spaces s in
  let '(neg, s2) :=
    match s1 with
    | c :: r => if Ascii.eqb c "-" then (true, r)
                else if Ascii.eqb c "+" then (false, r) else (false, s1)
    | [] => (false, s1)
    end in
  let '(v, n, rest) := read_digits s2 0 0 in
  if (n =? 0)%nat then (0, s)
  else ((if ULONG_MAX <? v then ULONG_MAX
         else if neg then (- v) mod 2 ^ 64 else v), rest).

Definition parse_number (arg : list ascii) (minValue maxValue modulus : Z) : option Z :=
  let '(value, strEnd) := strtoul10 arg in
  if (List.length strEnd =? List.length arg)%nat
     || negb (List.length strEnd =? 0)%nat then None
  else if (value <? minValue) || (maxValue <? value) then None
  else Some (value mod modulus).

Definition parseByte (arg : list ascii) (minValue maxValue : Z) : option Z :=
  parse_number arg minValue maxValue 256.

Definition parseShort (arg : list ascii) (minValue maxValue : Z) : option Z :=
  parse_number arg minValue maxValue 65536.

Fixpoint split_dot (s : list ascii) : list (list ascii) :=
  match s with
  | [] => [[]]
  | c :: r =>
      if Ascii.eqb c "." then [] :: split_dot r
      else match split_dot r with
           | t :: ts => (c :: t) :: ts
           | [] => [[c]]
           end
  end.

Definition strtok_dot (s : list ascii) : list (list ascii) :=
  filter (fun t => negb (List.length t =? 0)%nat) (split_dot s).

Fixpoint ip_parts (n : nat) (parts : list (list ascii)) (acc : list Z)
    : list Z * list (list ascii) :=
  match n, parts with
  | S n', p :: rest =>
      match parseByte p 0 255 with
      | Some b => ip_parts n' rest (acc ++ [b])
      | None => (acc, parts)
      end
  | _, _ => (acc, parts)
  end.

Definition parse_ip (setDhcp : bool) (arg : list ascii) : option (list Z) :=
  if (List.length arg =? 0)%nat then None
  else if setDhcp then None
  else
    let '(bytes, rest) := ip_parts 4 (strtok_dot arg) [] in
    if negb (List.length bytes =? 4)%nat || negb (List.length rest =? 0)%nat
       || (fold_left Z.add bytes 0 =? 0) then None
    else Some bytes.

Definition parse_mask (setDhcp : bool) (arg : list ascii) : option Z :=
  if (List.length arg =? 0)%nat then None
  else if setDhcp then None
  else parseByte arg 0 0x1e.

(** Addresses of an image in increasing order. *)
Definition addr_lt (p q : Z * Z) : Prop := fst p < fst q.

(** ** Concrete links and images *)

(** A device answering one command: sync byte, header, payload. *)
Definition answer (cmd : Z) (payload : list Z) : list Z :=
  [STX] ++ encode (mkFrame cmd (Z.of_nat (List.length payload)) 0 0 0 0 0 0 [])
  ++ payload.

(** A link accepting [nw] writes at once, with the read events [rs] and
    the device sending [i]. *)
Definition link (nw : nat) (i : list Z) (rs : list Z) : io :=
  mkIo (repeat 200 nw) rs i [] [].

(** An image of 40 bytes from the boot-block boundary on. *)
Definition img0 : cursor :=
  map (fun k => (END_BOOT_BYTES + Z.of_nat k, Z.of_nat k)) (seq 0 40).

(** ** Frame layout *)

Lemma lor_low_high (a : Z) :
  Z.lor (Z.land a 0xff) (Z.shiftl (Z.shiftr a 8) 8) = a.
Proof.
  apply Z.bits_inj'; intros n Hn.
  rewrite Z.lor_spec, Z.land_spec.
  change 0xff with (Z.ones 8).
  destruct (Z.lt_ge_cases n 8) as [Hlt | Hge].
  - rewrite Z.ones_spec_low by lia.
    rewrite Z.shiftl_spec_low by lia.
    now rewrite andb_true_r, orb_false_r.
  - rewrite Z.ones_spec_high by lia.
    rewrite Z.shiftl_spec_high by lia.
    rewrite Z.shiftr_spec by lia.
    replace (n - 8 + 8) with n by lia.
    now rewrite andb_false_r.
Qed.

Lemma decode_encode_general (f : frame) :
  header_bytes f -> decode (encode f) = f.
Proof.
  destruct f as [cmd dl k1 k2 aL aH aU au d]; simpl.
  intros (_ & _ & _ & _ & _ & _ & _ & Hlen).
  unfold decode, encode; simpl.
  rewrite lor_low_high.
  f_equal.
  change (firstn (Z.to_nat (2 * WRITE_FLASH_BLOCKSIZE)) d = d).
  rewrite <- Hlen. apply firstn_all.
Qed.

(** C4: for every opcode of the command set and every payload length in
    [0, 64], decoding the buffer of an encoded frame (9-byte header with
    little-endian 16-bit length and split address bytes, then the data)
    gives back the frame. *)
Theorem frame_roundtrip (f : frame) :
  In (command f) opcodes -> 0 <= data_length f <= 64 ->
  header_bytes f -> decode (encode f) = f.
Proof. intros _ _ Hb. now apply decode_encode_general. Qed.

Lemma frame_roundtrip_witness :
  let f := writeFlash_frame 0x400 32 (map Z.of_nat (seq 0 32)) in
  In (command f) opcodes /\ 0 <= data_length f <= 64 /\ header_bytes f
  /\ decode (encode f) = f.
Proof.
  intro f.
  assert (H1 : In (command f) opcodes) by (simpl; tauto).
  assert (H2 : 0 <= data_length f <= 64) by (vm_compute; split; discriminate).
  assert (H3 : header_bytes f)
    by (unfold header_bytes, is_byte; vm_compute; repeat split; discriminate).
  split; [exact H1 | split; [exact H2 | split; [exact H3 |]]].
  exact (frame_roundtrip f H1 H2 H3).
Defined.

(** ** Status codes of the commands *)

(** C8: the [data_length] of the erase frame is the block count
    ceil(len / 32) for every [uint16_t] length. *)
Theorem eraseFlash_block_count (address len : Z) :
  0 <= len < 65536 ->
  let dl := data_length (eraseFlash_frame address len) in
  len <= dl * ERASE_FLASH_BLOCKSIZE /\ (dl - 1) * ERASE_FLASH_BLOCKSIZE < len.
Proof.
  intros Hlen dl; subst dl; simpl.
  unfold ERASE_FLASH_BLOCKSIZE.
  assert (Hq : 0 <= (len + 32 - 1) / 32 < 65536).
  { split; [apply Z.div_pos; lia | apply Z.div_lt_upper_bound; lia]. }
  rewrite Z.mod_small by exact Hq.
  pose proof (Z.div_mod (len + 32 - 1) 32 ltac:(lia)) as Hdm.
  pose proof (Z.mod_pos_bound (len + 32 - 1) 32 ltac:(lia)) as Hr.
  lia.
Qed.

Lemma eraseFlash_block_count_witness :
  (0 <= 100 < 65536 /\ data_length (eraseFlash_frame 0x400 100) = 4)
  /\ (100 <= data_length (eraseFlash_frame 0x400 100) * ERASE_FLASH_BLOCKSIZE
      /\ (data_length (eraseFlash_frame 0x400 100) - 1) * ERASE_FLASH_BLOCKSIZE
         < 100).
Proof.
  split; [split; [lia | reflexivity] |].
  apply (eraseFlash_block_count 0x400 100); lia.
Defined.

(** C9: when the erase exchange returns 0, [eraseFlash] returns 0 on the
    status byte [COMMAND_SUCCESS] and [-(s+1)] on any other status [s]. *)
Theorem eraseFlash_status (address len : Z) (s s' : io) (f' : frame) :
  exchange (eraseFlash_frame address len) 0 1
    (data_length (eraseFlash_frame address len) * 5) false s = ((0, f'), s') ->
  eraseFlash address len s =
    ((if nth 0 (data f') 0 =? COMMAND_SUCCESS then 0
      else - (nth 0 (data f') 0 + 1)), s').
Proof.
  intros Hx. unfold eraseFlash, bind. rewrite Hx. simpl.
  destruct (nth 0 (data f') 0 =? COMMAND_SUCCESS); unfold ret; simpl;
    [reflexivity | f_equal; lia].
Qed.

Lemma eraseFlash_status_witness :
  let s := link 2 (answer ERASE_FLASH [0xfe]) [1; 9; 1; 0] in
  let x := exchange (eraseFlash_frame 0x400 100) 0 1
             (data_length (eraseFlash_frame 0x400 100) * 5) false s in
  fst (fst x) = 0 /\
  eraseFlash 0x400 100 s =
    ((if nth 0 (data (snd (fst x))) 0 =? COMMAND_SUCCESS then 0
      else - (nth 0 (data (snd (fst x))) 0 + 1)), snd x)
  /\ fst (eraseFlash 0x400 100 s) = -255.
Proof.
  intros s x.
  assert (H0 : fst (fst x) = 0) by reflexivity.
  split; [exact H0 | split; [| reflexivity]].
  apply eraseFlash_status.
  destruct x as [[r f'] s'] eqn:E; simpl in H0; subst r.
  exact E.
Defined.

(** C10: [writeFlash] and [writeConfig] return -1 for every status byte
    other than [COMMAND_SUCCESS], whatever its value. *)
Theorem write_status_discarded :
  (forall address len d hideErrors s s' f',
     exchange (writeFlash_frame address len d) len 1 (len * 30) hideErrors s
       = ((0, f'), s') ->
     nth 0 (data f') 0 <> COMMAND_SUCCESS ->
     writeFlash address len d hideErrors s = (-1, s'))
  /\
  (forall address len d s s' f',
     exchange (writeConfig_frame address len d) len 1 50 false s
       = ((0, f'), s') ->
     nth 0 (data f') 0 <> COMMAND_SUCCESS ->
     writeConfig address len d s = (-1, s')).
Proof.
  split.
  - intros address len d hideErrors s s' f' Hx Hst.
    unfold writeFlash, bind. rewrite Hx. simpl.
    apply Z.eqb_neq in Hst. now rewrite Hst.
  - intros address len d s s' f' Hx Hst.
    unfold writeConfig, bind. rewrite Hx. simpl.
    apply Z.eqb_neq in Hst. now rewrite Hst.
Qed.

Lemma write_status_discarded_witness :
  let d := repeat 0 32 in
  let s1 := link 2 (answer WRITE_FLASH [0xfe]) [1; 9; 1; 0] in
  let s2 := link 2 (answer WRITE_CONFIG [0x02]) [1; 9; 1; 0] in
  writeFlash 0x400 32 d true s1
    = (-1, snd (exchange (writeFlash_frame 0x400 32 d) 32 1 (32 * 30) true s1))
  /\ writeConfig 0 8 (firstn 8 d) s2
    = (-1, snd (exchange (writeConfig_frame 0 8 (firstn 8 d)) 8 1 50 false s2)).
Proof.
  intros d s1 s2. split.
  - assert (Hr : fst (fst (exchange (writeFlash_frame 0x400 32 d) 32 1 (32 * 30)
                               true s1)) = 0) by reflexivity.
    assert (Hs : nth 0 (data (snd (fst (exchange (writeFlash_frame 0x400 32 d)
                   32 1 (32 * 30) true s1)))) 0 = 0xfe) by reflexivity.
    destruct (exchange (writeFlash_frame 0x400 32 d) 32 1 (32 * 30) true s1)
      as [[r f'] s'] eqn:E.
    simpl in Hr, Hs |- *. subst r.
    apply (proj1 write_status_discarded _ _ _ _ _ _ _ E).
    rewrite Hs. discriminate.
  - assert (Hr : fst (fst (exchange (writeConfig_frame 0 8 (firstn 8 d)) 8 1 50
                               false s2)) = 0) by reflexivity.
    assert (Hs : nth 0 (data (snd (fst (exchange (writeConfig_frame 0 8
                   (firstn 8 d)) 8 1 50 false s2)))) 0 = 0x02) by reflexivity.
    destruct (exchange (writeConfig_frame 0 8 (firstn 8 d)) 8 1 50 false s2)
      as [[r f'] s'] eqn:E.
    simpl in Hr, Hs |- *. subst r.
    apply (proj2 write_status_discarded _ _ _ _ _ _ E).
    rewrite Hs. discriminate.
Defined.

(** ** The exchange primitive *)

Lemma send_loop_abort_negative ws o e buf pos len h r ws' o' e' :
  send_loop ws o e buf pos len h = (Some r, ws', o', e') -> r < 0.
Proof.
  revert o e pos.
  induction ws as [| w ws IH]; intros o e pos Hl; cbn [send_loop] in Hl;
    destruct (pos <? len); try discriminate.
  - inversion Hl; lia.
  - cbn [waitWrite] in Hl.
    destruct (write_result w (len - pos) <? 0) eqn:Hn.
    + inversion Hl; subst. now apply Z.ltb_lt.
    + destruct (write_result w (len - pos) =? 0).
      * inversion Hl; lia.
      * eapply IH; exact Hl.
Qed.

Lemma recv_loop_abort_negative rs i e buf pos len fx h r rs' i' e' buf' :
  recv_loop rs i e buf pos len fx h = (Some r, rs', i', e', buf') -> r < 0.
Proof.
  revert i e buf pos len fx.
  induction rs as [| x rs IH]; intros i e buf pos len fx Hl; cbn [recv_loop] in Hl;
    destruct (pos <? len); try discriminate.
  - inversion Hl; lia.
  - cbn [waitRead] in Hl.
    destruct (0 <? read_result x (len - pos) i) eqn:Hp.
    + apply Z.ltb_lt in Hp.
      destruct (read_result x (len - pos) i <? 0) eqn:Hn.
      { apply Z.ltb_lt in Hn. lia. }
      destruct (read_result x (len - pos) i =? 0) eqn:Hz.
      { apply Z.eqb_eq in Hz. lia. }
      destruct (pos + read_result x (len - pos) i =? FRAME_HEADER_LEN);
        eapply IH; exact Hl.
    + destruct (read_result x (len - pos) i <? 0) eqn:Hn.
      * inversion Hl; subst. now apply Z.ltb_lt.
      * destruct (read_result x (len - pos) i =? 0) eqn:Hz.
        -- inversion Hl; lia.
        -- apply Z.ltb_ge in Hp. apply Z.ltb_ge in Hn.
           apply Z.eqb_neq in Hz. lia.
Qed.

(** Every run of [sendReceiveFrame] returns a negative value, or 0 with
    the command byte of the buffer unchanged. *)
Lemma sendReceiveFrame_result buf sd fx ex h s r buf' s' :
  sendReceiveFrame buf sd fx ex h s = ((r, buf'), s') ->
  r < 0 \/ (r = 0 /\ command (decode buf') = command (decode buf)).
Proof.
  unfold sendReceiveFrame.
  destruct (waitWrite (wevs s) (out s) [STX] 1) as [[cnt ws1] o1].
  destruct (cnt <? 0) eqn:H1.
  { intro E; inversion E; subst. left. now apply Z.ltb_lt. }
  destruct (cnt =? 0) eqn:H2.
  { intro E; inversion E; subst. right. apply Z.eqb_eq in H2. auto. }
  destruct (send_loop ws1 o1 (errs s) buf 0 (FRAME_HEADER_LEN + sd) h)
    as [[[[sr |] ws2] o2] e2] eqn:Hs.
  { intro E; inversion E; subst. left. eapply send_loop_abort_negative; exact Hs. }
  destruct (waitRead (revs s) (inp s) 1) as [[[c chs] rs3] i3].
  destruct (c <? 0) eqn:H3.
  { intro E; inversion E; subst. left. now apply Z.ltb_lt. }
  destruct (c =? 0).
  { intro E; inversion E; subst. left. lia. }
  destruct (negb (hd STX chs =? STX)).
  { intro E; inversion E; subst. left. lia. }
  destruct (recv_loop rs3 i3 e2 buf 0 FRAME_HEADER_LEN fx h)
    as [[[[[rr |] rs4] i4] e4] buf4] eqn:Hr.
  { intro E; inversion E; subst. left. eapply recv_loop_abort_negative; exact Hr. }
  destruct (waitRead rs4 i4 4) as [[[_x _y] rs5] i5].
  destruct (negb (command (decode buf4) =? command (decode buf))) eqn:Hc.
  - intro E; inversion E; subst. left. lia.
  - intro E; inversion E; subst. right. split; [reflexivity |].
    apply negb_false_iff, Z.eqb_eq in Hc. exact Hc.
Qed.

(** C5: whenever the command byte of the frame buffer after the exchange
    differs from the command that was sent, [sendReceiveFrame] returns a
    negative value, whatever the payload. *)
Theorem response_command_mismatch buf sd fx ex h s r buf' s' :
  sendReceiveFrame buf sd fx ex h s = ((r, buf'), s') ->
  command (decode buf') <> command (decode buf) -> r < 0.
Proof.
  intros E Hc.
  destruct (sendReceiveFrame_result buf sd fx ex h s r buf' s' E)
    as [Hneg | [_ Heq]]; [exact Hneg | contradiction].
Qed.

Lemma response_command_mismatch_witness :
  let b := encode (eraseFlash_frame 0x400 100) in
  let s := link 2 (answer WRITE_FLASH [1]) [1; 9; 1; 0] in
  command (decode (snd (fst (sendReceiveFrame b 0 1 20 false s))))
    <> command (decode b)
  /\ fst (fst (sendReceiveFrame b 0 1 20 false s)) < 0.
Proof.
  intros b s.
  assert (Hc : command (decode (snd (fst (sendReceiveFrame b 0 1 20 false s))))
               <> command (decode b)) by (vm_compute; discriminate).
  split; [exact Hc |].
  destruct (sendReceiveFrame b 0 1 20 false s) as [[r b'] s'] eqn:E.
  exact (response_command_mismatch b 0 1 20 false s r b' s' E Hc).
Defined.

(** C2: when the poll for the sync byte times out, [sendReceiveFrame]
    returns 0, the value it returns after a complete exchange. *)
Theorem sync_timeout_returns_success_value :
  (forall buf sd fx ex h ws rs i o e,
     fst (fst (sendReceiveFrame buf sd fx ex h (mkIo (0 :: ws) rs i o e))) = 0)
  /\ fst (fst (sendReceiveFrame (encode (eraseFlash_frame 0x400 100)) 0 1 20
                 false (link 2 (answer ERASE_FLASH [1]) [1; 9; 1; 0]))) = 0.
Proof. split; [intros; reflexivity | reflexivity]. Qed.

(** C3: with [fixReceiveDataLen < 0] (as [readFlash] calls it), the payload
    length is taken from the answer's header without a bound: a header
    announcing 100 bytes makes the exchange store 109 bytes, 36 past the
    73-byte [frame_t] buffer, and still return 0. *)
Theorem header_length_overflows_frame :
  let b := encode (readFlash_frame 0) in
  let s := link 2 (answer READ_FLASH (repeat 7 100)) [1; 9; 100; 0] in
  let x := sendReceiveFrame b 0 (-1) 0 false s in
  fst (fst x) = 0
  /\ List.length b = Z.to_nat FRAME_MAX_LEN
  /\ List.length (snd (fst x)) = 109%nat
  /\ (List.length (snd (fst x)) - Z.to_nat FRAME_HEADER_LEN > 64)%nat.
Proof. vm_compute. repeat split; lia. Qed.

(** ** The flashing sequence *)

(** C6: an image whose address range starts below the boot block, ends at
    or above the flash size, ends before it starts, or starts unaligned to
    16 bytes is rejected: [flashPic] returns false after printing one error
    line, with the link untouched (no erase or write exchange). *)
Theorem invalid_range_rejected (ih : cursor) (s : io) (startAddr endAddr : Z) :
  startAddress ih = Some startAddr -> endAddress ih = Some endAddr ->
  startAddr < END_BOOT_BYTES \/ END_FLASH_BYTES <= endAddr
  \/ endAddr < startAddr \/ Z.land startAddr 0xf <> 0 ->
  flashPic (Some ih) s = (false, set_errs s (errs s ++ ["invalid address range"%string])).
Proof.
  intros Hs He Hinv.
  assert (Hr : invalid_range startAddr endAddr = true).
  { unfold invalid_range. rewrite !orb_true_iff.
    destruct Hinv as [H | [H | [H | H]]].
    - left; left; left. now apply Z.ltb_lt.
    - left; left; right. now apply Z.leb_le.
    - left; right. now apply Z.ltb_lt.
    - right. apply negb_true_iff, Z.eqb_neq. exact H. }
  unfold flashPic. rewrite Hs, He, Hr. reflexivity.
Qed.

Lemma invalid_range_rejected_witness :
  let ih := [(0x0000, 0xff); (0x7ffe, 0x3f)] in
  let s := link 4 [] [] in
  startAddress ih = Some 0x0000 /\ endAddress ih = Some 0x7ffe
  /\ flashPic (Some ih) s
     = (false, set_errs s (errs s ++ ["invalid address range"%string])).
Proof.
  intros ih s.
  split; [reflexivity | split; [reflexivity |]].
  apply (invalid_range_rejected ih s 0x0000 0x7ffe); try reflexivity.
  left. unfold END_BOOT_BYTES, END_BOOT. lia.
Defined.

Lemma send_loop_hidden ws o e buf pos len r ws' o' e' :
  send_loop ws o e buf pos len true = (r, ws', o', e') -> e' = e.
Proof.
  revert o pos.
  induction ws as [| w ws IH]; intros o pos Hl; cbn [send_loop] in Hl;
    destruct (pos <? len); try (inversion Hl; reflexivity).
  cbn [waitWrite] in Hl.
  destruct (write_result w (len - pos) <? 0); [inversion Hl; reflexivity |].
  destruct (write_result w (len - pos) =? 0); [inversion Hl; reflexivity |].
  eapply IH; exact Hl.
Qed.

Lemma recv_loop_hidden rs i e buf pos len fx r rs' i' e' buf' :
  recv_loop rs i e buf pos len fx true = (r, rs', i', e', buf') -> e' = e.
Proof.
  revert i buf pos len fx.
  induction rs as [| x rs IH]; intros i buf pos len fx Hl; cbn [recv_loop] in Hl;
    destruct (pos <? len); try (inversion Hl; reflexivity).
  cbn [waitRead] in Hl.
  destruct (0 <? read_result x (len - pos) i);
    (destruct (read_result x (len - pos) i <? 0); [inversion Hl; reflexivity |]);
    (destruct (read_result x (len - pos) i =? 0); [inversion Hl; reflexivity |]).
  - destruct (pos + read_result x (len - pos) i =? FRAME_HEADER_LEN);
      eapply IH; exact Hl.
  - destruct (pos + read_result x (len - pos) i =? FRAME_HEADER_LEN);
      eapply IH; exact Hl.
Qed.

(** With [hideErrors] set, an exchange prints nothing on [std::cerr]. *)
Lemma sendReceiveFrame_hidden buf sd fx ex s :
  errs (snd (sendReceiveFrame buf sd fx ex true s)) = errs s.
Proof.
  unfold sendReceiveFrame.
  destruct (waitWrite (wevs s) (out s) [STX] 1) as [[cnt ws1] o1].
  destruct (cnt <? 0); [reflexivity |].
  destruct (cnt =? 0); [reflexivity |].
  destruct (send_loop ws1 o1 (errs s) buf 0 (FRAME_HEADER_LEN + sd) true)
    as [[[[sr |] ws2] o2] e2] eqn:Hs;
    apply send_loop_hidden in Hs; subst e2; [reflexivity |].
  destruct (waitRead (revs s) (inp s) 1) as [[[c chs] rs3] i3].
  destruct (c <? 0); [reflexivity |].
  destruct (c =? 0); [reflexivity |].
  destruct (negb (hd STX chs =? STX)); [reflexivity |].
  destruct (recv_loop rs3 i3 (errs s) buf 0 FRAME_HEADER_LEN fx true)
    as [[[[[rr |] rs4] i4] e4] buf4] eqn:Hr;
    apply recv_loop_hidden in Hr; subst e4; [reflexivity |].
  destruct (waitRead rs4 i4 4) as [[[_x _y] rs5] i5].
  destruct (negb (command (decode buf4) =? command (decode buf))); reflexivity.
Qed.

Lemma writeFlash_hidden address len d s :
  errs (snd (writeFlash address len d true s)) = errs s.
Proof.
  unfold writeFlash, exchange, bind.
  pose proof (sendReceiveFrame_hidden (encode (writeFlash_frame address len d))
                len 1 (len * 30) s) as H.
  destruct (sendReceiveFrame (encode (writeFlash_frame address len d))
              len 1 (len * 30) true s) as [[r buf] s'].
  cbn [fst snd] in H |- *.
  destruct (negb (r =? 0)); [exact H |].
  destruct (negb (nth 0 (data (decode buf)) 0 =? COMMAND_SUCCESS)); exact H.
Qed.

(** C7: for a block that is not blank, the loop of [flashPic] writes it
    once with errors hidden (printing nothing); only when that attempt
    fails does it write it a second time, with errors shown; when the
    second attempt fails too, the loop stops at once with failure, which
    [flashPic] returns without any further exchange. *)
Theorem nonblank_block_retry (n : nat) (c : cursor)
    (blockStart nextAddr checkSum endAddr : Z) (s : io)
    (buf : list Z) (c' : cursor) (nextAddr' checkSum' : Z) :
  blockStart < endAddr ->
  fill_block (Z.to_nat WRITE_FLASH_BLOCKSIZE) 0 c nextAddr true checkSum
    = (buf, c', nextAddr', false, checkSum') ->
  errs (snd (writeFlash (blockStart / 2) WRITE_FLASH_BLOCKSIZE buf true s))
    = errs s
  /\ program_blocks (S n) c blockStart nextAddr checkSum endAddr s =
     match writeFlash (blockStart / 2) WRITE_FLASH_BLOCKSIZE buf true s with
     | (0, s1) =>
         program_blocks n c' (blockStart + WRITE_FLASH_BLOCKSIZE) nextAddr'
           checkSum' endAddr s1
     | (_, s1) =>
         match writeFlash (blockStart / 2) WRITE_FLASH_BLOCKSIZE buf false s1 with
         | (0, s2) =>
             program_blocks n c' (blockStart + WRITE_FLASH_BLOCKSIZE) nextAddr'
               checkSum' endAddr s2
         | (_, s2) =>
             (None, set_errs s2 (errs s2 ++ ["unable to write flash"%string]))
         end
     end
  /\ (forall ih s0 startAddr endA s1 s2,
        startAddress ih = Some startAddr -> endAddress ih = Some endA ->
        invalid_range startAddr endA = false ->
        currentAddress ih = Some END_BOOT_BYTES ->
        eraseFlash (END_BOOT_BYTES / 2) ((endA - END_BOOT_BYTES) / 2 mod 65536) s0
          = (0, s1) ->
        program_blocks (block_count END_BOOT_BYTES endA) ih END_BOOT_BYTES
          END_BOOT_BYTES 0 endA s1 = (None, s2) ->
        flashPic (Some ih) s0 = (false, s2)).
Proof.
  intros Hlt Hfill.
  split; [apply writeFlash_hidden |].
  split.
  - cbn [program_blocks].
    apply Z.ltb_lt in Hlt. rewrite Hlt, Hfill.
    unfold bind, write_block, bind.
    destruct (writeFlash (blockStart / 2) WRITE_FLASH_BLOCKSIZE buf true s)
      as [[| p1 | p1] s1]; [reflexivity | |];
    cbn -[writeFlash program_blocks];
    (destruct (writeFlash (blockStart / 2) WRITE_FLASH_BLOCKSIZE buf false s1)
       as [[| p2 | p2] s2]; reflexivity).
  - intros ih s0 startAddr endA s1 s2 Hs He Hr Hc Herase Hprog.
    unfold flashPic. rewrite Hs, He, Hr, Hc.
    cbv zeta. rewrite Z.eqb_refl. cbn [negb].
    unfold bind. rewrite Herase. cbn [negb Z.eqb].
    rewrite Hprog. reflexivity.
Qed.

Lemma nonblank_block_retry_witness :
  let s := mkIo [-1; -1] [] [] [] [] in
  0x800 < 0x860
  /\ fill_block (Z.to_nat WRITE_FLASH_BLOCKSIZE) 0 img0 0x800 true 0
     = (map Z.of_nat (seq 0 32), skipn 32 img0, 0x820, false, 240)
  /\ program_blocks 2 img0 0x800 0x800 0 0x860 s
     = (None, mkIo [] [] [] []
                ["write sync failed"%string; "unable to write flash"%string]).
Proof.
  intro s.
  assert (Hlt : 0x800 < 0x860) by lia.
  assert (Hfill : fill_block (Z.to_nat WRITE_FLASH_BLOCKSIZE) 0 img0 0x800 true 0
                  = (map Z.of_nat (seq 0 32), skipn 32 img0, 0x820, false, 240))
    by reflexivity.
  split; [exact Hlt | split; [exact Hfill |]].
  destruct (nonblank_block_retry 1 img0 0x800 0x800 0 0x860 s _ _ _ _ Hlt Hfill)
    as [_ [Heq _]].
  rewrite Heq. reflexivity.
Defined.

(** ** The checksum of the flashing sequence *)

Lemma fill_block_unblank k pos c nextAddr checkSum buf c' nextAddr' b checkSum' :
  fill_block k pos c nextAddr false checkSum = (buf, c', nextAddr', b, checkSum') ->
  b = false.
Proof.
  revert pos c nextAddr checkSum buf.
  induction k as [| k IH]; intros pos c nextAddr checkSum buf Hf; cbn [fill_block] in Hf.
  - now inversion Hf.
  - destruct (currentAddress c) as [addr |]; destruct (getData c) as [v |];
      try (destruct (addr =? nextAddr));
      (destruct (fill_block k (pos + 1) _ (nextAddr + 1) false _)
         as [[[[buf1 c1] na1] b1] cs1] eqn:Hk;
       inversion Hf; subst; eapply IH; exact Hk).
Qed.

Lemma fill_block_blank k pos c nextAddr checkSum buf c' nextAddr' checkSum' :
  fill_block k pos c nextAddr true checkSum = (buf, c', nextAddr', true, checkSum') ->
  buf = pad_block k pos /\ c' = c.
Proof.
  revert pos c nextAddr checkSum buf.
  induction k as [| k IH]; intros pos c nextAddr checkSum buf Hf; cbn [fill_block] in Hf.
  - inversion Hf; subst. split; reflexivity.
  - cbn [pad_block].
    destruct (currentAddress c) as [addr |]; destruct (getData c) as [v |];
      try destruct (addr =? nextAddr).
    (* an image byte lands in the block: it is no longer blank *)
    1: { destruct (fill_block k (pos + 1) (incrementAddress c) (nextAddr + 1) false _)
           as [[[[buf1 c1] na1] b1] cs1] eqn:Hk.
         inversion Hf; subst.
         apply fill_block_unblank in Hk. discriminate. }
    all: destruct (fill_block k (pos + 1) c (nextAddr + 1) true _)
           as [[[[buf1 c1] na1] b1] cs1] eqn:Hk;
         inversion Hf; subst;
         destruct (IH _ _ _ _ _ Hk) as [-> ->]; split; reflexivity.
Qed.

(** C1: the checksum the block loop of [flashPic] hands to the verification
    is [blocks_checksum], computed from the address range and the image
    alone, whatever the device answers and whichever blocks were written;
    and the bytes of a blank (skipped) block that enter it are exactly the
    pad values a write of the block would have sent. *)
Theorem flash_checksum_independent_of_writes :
  (forall n c blockStart nextAddr checkSum endAddr s c' blockStart' nextAddr'
          checkSum' s',
     program_blocks n c blockStart nextAddr checkSum endAddr s
       = (Some (c', blockStart', nextAddr', checkSum'), s') ->
     checkSum' = blocks_checksum n c blockStart nextAddr checkSum endAddr)
  /\
  (forall c nextAddr checkSum buf c' nextAddr' checkSum',
     fill_block (Z.to_nat WRITE_FLASH_BLOCKSIZE) 0 c nextAddr true checkSum
       = (buf, c', nextAddr', true, checkSum') ->
     buf = pad_block (Z.to_nat WRITE_FLASH_BLOCKSIZE) 0).
Proof.
  split.
  - intro n. induction n as [| n IH];
      intros c blockStart nextAddr checkSum endAddr s c' blockStart' nextAddr'
             checkSum' s' Hp;
      cbn [program_blocks blocks_checksum] in Hp |- *.
    + now inversion Hp.
    + destruct (blockStart <? endAddr); [| now inversion Hp].
      destruct (fill_block (Z.to_nat WRITE_FLASH_BLOCKSIZE) 0 c nextAddr true checkSum)
        as [[[[buf c1] na1] blank] cs1].
      unfold bind in Hp.
      destruct (if blank then ret true else write_block blockStart buf) as [ok s1].
      destruct ok; [| discriminate].
      eapply IH; exact Hp.
  - intros c nextAddr checkSum buf c' nextAddr' checkSum' Hf.
    exact (proj1 (fill_block_blank _ _ _ _ _ _ _ _ _ Hf)).
Qed.

Lemma flash_checksum_independent_of_writes_witness :
  let s := link 4 (answer WRITE_FLASH [1] ++ answer WRITE_FLASH [1])
             [1; 9; 1; 0; 1; 9; 1; 0] in
  match fst (program_blocks (block_count END_BOOT_BYTES 0x827) img0 0x800 0x800 0
               0x827 s) with
  | Some (_, _, _, checkSum) =>
      checkSum = blocks_checksum (block_count END_BOOT_BYTES 0x827) img0 0x800
                   0x800 0 0x827
  | None => False
  end
  /\ fst (fst (fst (fst (fill_block (Z.to_nat WRITE_FLASH_BLOCKSIZE) 0
                           [(0x900, 1)] 0x800 true 0))))
     = pad_block (Z.to_nat WRITE_FLASH_BLOCKSIZE) 0.
Proof.
  intro s. split.
  - destruct (program_blocks (block_count END_BOOT_BYTES 0x827) img0 0x800 0x800 0
                0x827 s) as [[[[[c' b'] n'] cs'] |] s'] eqn:E.
    + exact (proj1 flash_checksum_independent_of_writes _ _ _ _ _ _ _ _ _ _ _ _ E).
    + vm_compute in E. discriminate.
  - assert (Hb : snd (fst (fill_block (Z.to_nat WRITE_FLASH_BLOCKSIZE) 0
                              [(0x900, 1)] 0x800 true 0)) = true)
      by reflexivity.
    destruct (fill_block (Z.to_nat WRITE_FLASH_BLOCKSIZE) 0 [(0x900, 1)] 0x800 true 0)
      as [[[[buf c'] n'] b] cs'] eqn:E.
    simpl in Hb |- *. subst b.
    exact (proj2 flash_checksum_independent_of_writes _ _ _ _ _ _ _ E).
Defined.

(** ** How a block is filled from the sparse image *)


Lemma lookup_below (c : cursor) (x : Z) :
  Forall (fun p => x < fst p) c -> lookup c x = None.
Proof.
  induction c as [| [a v] r IH]; intros H; [reflexivity |].
  inversion H as [| ? ? Ha Hr]; subst; simpl in *.
  destruct (Z.eqb_spec a x); [lia |]. now apply IH.
Qed.

Lemma filter_below (c : cursor) (x : Z) :
  Forall (fun p => x <= fst p) c -> filter (fun p => x <=? fst p) c = c.
Proof.
  induction c as [| p r IH]; intros H; [reflexivity |].
  inversion H; subst; simpl.
  destruct (Z.leb_spec x (fst p)); [| lia]. now rewrite IH.
Qed.

Lemma has_addr_below (c : cursor) (lo hi : Z) :
  Forall (fun p => hi <= fst p) c -> has_addr_in c lo hi = false.
Proof.
  induction c as [| p r IH]; intros H; [reflexivity |].
  inversion H; subst; unfold has_addr_in in *; simpl.
  destruct (Z.ltb_spec (fst p) hi); [lia |].
  rewrite andb_false_r. now apply IH.
Qed.

Lemma has_addr_shift (c : cursor) (lo hi : Z) :
  Forall (fun p => lo < fst p) c ->
  has_addr_in c (lo + 1) hi = has_addr_in c lo hi.
Proof.
  induction c as [| p r IH]; intros H; [reflexivity |].
  inversion H; subst; unfold has_addr_in in *; simpl.
  destruct (Z.leb_spec (lo + 1) (fst p)); [| lia].
  destruct (Z.leb_spec lo (fst p)); [| lia].
  simpl. now rewrite IH.
Qed.

(** [fill_block] on an image sorted by strictly increasing address, whose
    unread addresses are all at or after [nextAddr]: the block holds, at
    each position [j], the image byte at [nextAddr + j] when there is one
    and the pad value of the position otherwise; the cursor moves past
    exactly the addresses of the block; [nextAddr] advances by [k]; and
    the block stays blank exactly when no image address falls in it. *)
Theorem fill_block_image (k : nat) (pos : Z) (c : cursor) (nextAddr : Z)
    (blank : bool) (checkSum : Z) buf c' nextAddr' blank' checkSum' :
  StronglySorted addr_lt c -> Forall (fun p => nextAddr <= fst p) c ->
  fill_block k pos c nextAddr blank checkSum
    = (buf, c', nextAddr', blank', checkSum') ->
  List.length buf = k
  /\ (forall j : nat, (j < k)%nat ->
        nth j buf 0 = match lookup c (nextAddr + Z.of_nat j) with
                      | Some v => v
                      | None => pad (pos + Z.of_nat j)
                      end)
  /\ c' = filter (fun p => nextAddr + Z.of_nat k <=? fst p) c
  /\ nextAddr' = nextAddr + Z.of_nat k
  /\ blank' = blank && negb (has_addr_in c nextAddr (nextAddr + Z.of_nat k)).
Proof.
  revert pos c nextAddr blank checkSum buf.
  induction k as [| k IH];
    intros pos c nextAddr blank checkSum buf Hsort Hge Hf; cbn [fill_block] in Hf.
  - injection Hf as Hb Hc Hn Hbl Hcs.
    subst buf c' nextAddr' blank' checkSum'.
    split; [reflexivity | split; [intros j Hj; lia | split; [| split]]].
    + rewrite Z.add_0_r. symmetry. now apply filter_below.
    + lia.
    + rewrite Z.add_0_r, (has_addr_below c nextAddr nextAddr Hge).
      now rewrite andb_true_r.
  - destruct c as [| [a v] r].
    + (* the image is used up: pad *)
      cbn [currentAddress getData hd_error option_map] in Hf.
      destruct (fill_block k (pos + 1) [] (nextAddr + 1) blank _)
        as [[[[buf1 c1] na1] b1] cs1] eqn:Hk.
      inversion Hf; subst.
      destruct (IH _ _ _ _ _ _ (SSorted_nil _) (Forall_nil _) Hk)
        as (Hl & Hv & Hc & Hn & Hb).
      split; [simpl; lia | split; [| split; [exact Hc | split; [lia |]]]].
      * intros [| j] Hj; cbn [nth lookup].
        -- change (Z.of_nat 0) with 0. now rewrite Z.add_0_r.
        -- rewrite Hv by lia. cbn [lookup].
           f_equal. lia.
      * rewrite Hb. reflexivity.
    + apply StronglySorted_inv in Hsort as [Hsr Hlt].
      inversion Hge as [| ? ? Ha Hr]; subst. simpl in Ha.
      cbn [currentAddress getData hd_error option_map fst snd] in Hf.
      assert (Hr' : Forall (fun p => a < fst p) r).
      { eapply Forall_impl; [| exact Hlt]. unfold addr_lt; simpl; auto. }
      assert (Hr'0 : Forall (fun p => nextAddr < fst p) r \/ a = nextAddr).
      { destruct (Z.eq_dec a nextAddr); [now right | left].
        eapply Forall_impl; [| exact Hr']. simpl; intros; lia. }
      destruct (Z.eqb_spec a nextAddr) as [-> | Hne].
      * (* the image has a byte at [nextAddr] *)
        cbn [incrementAddress tl] in Hf.
        destruct (fill_block k (pos + 1) r (nextAddr + 1) false _)
          as [[[[buf1 c1] na1] b1] cs1] eqn:Hk.
        inversion Hf; subst.
        assert (Hge1 : Forall (fun p => nextAddr + 1 <= fst p) r).
        { eapply Forall_impl; [| exact Hr']. simpl; intros; lia. }
        destruct (IH _ _ _ _ _ _ Hsr Hge1 Hk) as (Hl & Hv & Hc & Hn & Hb).
        split; [simpl; lia | split; [| split; [| split; [lia |]]]].
        -- intros [| j] Hj; cbn [nth lookup].
           ++ change (Z.of_nat 0) with 0. now rewrite Z.add_0_r, Z.eqb_refl.
           ++ destruct (Z.eqb_spec nextAddr (nextAddr + Z.of_nat (S j))); [lia |].
              rewrite Hv by lia.
              replace (nextAddr + 1 + Z.of_nat j) with (nextAddr + Z.of_nat (S j)) by lia.
              replace (pos + 1 + Z.of_nat j) with (pos + Z.of_nat (S j)) by lia.
              reflexivity.
        -- rewrite Hc. cbn [filter fst].
           destruct (Z.leb_spec (nextAddr + Z.of_nat (S k)) nextAddr); [lia |].
           replace (nextAddr + Z.of_nat (S k)) with (nextAddr + 1 + Z.of_nat k) by lia.
           reflexivity.
        -- rewrite Hb. unfold has_addr_in. cbn [existsb fst].
           destruct (Z.leb_spec nextAddr nextAddr); [| lia].
           destruct (Z.ltb_spec nextAddr (nextAddr + Z.of_nat (S k))); [| lia].
           rewrite andb_false_r; reflexivity.
      * (* no byte at [nextAddr]: pad, the cursor stays *)
        assert (Hlt' : nextAddr < a) by lia.
        destruct Hr'0 as [Hr'0 | Heq]; [| lia].
        destruct (fill_block k (pos + 1) ((a, v) :: r) (nextAddr + 1) blank _)
          as [[[[buf1 c1] na1] b1] cs1] eqn:Hk.
        inversion Hf; subst.
        assert (Hge1 : Forall (fun p => nextAddr + 1 <= fst p) ((a, v) :: r)).
        { constructor; [simpl; lia |].
          eapply Forall_impl; [| exact Hr']. simpl; intros; lia. }
        destruct (IH _ _ _ _ _ _ (SSorted_cons _ Hsr Hlt) Hge1 Hk)
          as (Hl & Hv & Hc & Hn & Hb).
        split; [simpl; lia | split; [| split; [| split; [lia |]]]].
        -- intros [| j] Hj.
           ++ simpl. rewrite Z.add_0_r.
              destruct (Z.eqb_spec a nextAddr); [lia |].
              rewrite lookup_below; [now rewrite Z.add_0_r |].
              eapply Forall_impl; [| exact Hr']. simpl; intros; lia.
           ++ simpl nth. rewrite Hv by lia.
              replace (nextAddr + 1 + Z.of_nat j) with (nextAddr + Z.of_nat (S j)) by lia.
              replace (pos + 1 + Z.of_nat j) with (pos + Z.of_nat (S j)) by lia.
              reflexivity.
        -- rewrite Hc.
           replace (nextAddr + 1 + Z.of_nat k) with (nextAddr + Z.of_nat (S k)) by lia.
           reflexivity.
        -- rewrite Hb, (has_addr_shift ((a, v) :: r) nextAddr).
           ++ replace (nextAddr + 1 + Z.of_nat k) with (nextAddr + Z.of_nat (S k)) by lia.
              reflexivity.
           ++ constructor; [simpl; lia | exact Hr'0].
Qed.
(** Hypotheses of the instances below are discharged by evaluation. *)
Ltac concrete_hyp :=
  first [ reflexivity
        | unfold FRAME_HEADER_LEN, WRITE_FLASH_BLOCKSIZE; lia
        | vm_compute; reflexivity ].

Lemma fill_block_image_witness :
  let c := [(0x800, 1); (0x802, 2)] in
  let r := fill_block 4 0 c 0x800 true 0 in
  nth 1 (fst (fst (fst (fst r)))) 0 = pad 1 /\ snd (fst r) = false.
Proof.
  intros c r.
  assert (Hs : StronglySorted addr_lt c).
  { repeat constructor; unfold addr_lt; cbn [fst]; lia. }
  assert (Hf : Forall (fun p => 0x800 <= fst p) c).
  { repeat constructor; cbn [fst]; lia. }
  destruct (fill_block_image 4 0 c 0x800 true 0
              (fst (fst (fst (fst r)))) (snd (fst (fst (fst r))))
              (snd (fst (fst r))) (snd (fst r)) (snd r) Hs Hf eq_refl)
    as (Hl & Hv & Hc & Hn & Hb).
  split; [exact (Hv 1%nat ltac:(lia)) | rewrite Hb; reflexivity].
Defined.


(** ** The exchange on a clean link *)

Lemma write_result_full w len : 0 < len <= w -> write_result w len = len.
Proof. intros H. unfold write_result. destruct (Z.leb_spec w 0); lia. Qed.

Lemma read_result_full r len i :
  0 < len <= r -> len <= Z.of_nat (List.length i) -> read_result r len i = len.
Proof. intros H Hi. unfold read_result. destruct (Z.leb_spec r 0); lia. Qed.

Lemma send_loop_done ws o e buf pos len h :
  len <= pos -> send_loop ws o e buf pos len h = (None, ws, o, e).
Proof.
  intros H. destruct ws; cbn [send_loop];
  destruct (Z.ltb_spec pos len); (lia || reflexivity).
Qed.

Lemma recv_loop_done rs i e buf pos len fx h :
  len <= pos -> recv_loop rs i e buf pos len fx h = (None, rs, i, e, buf).
Proof.
  intros H. destruct rs; cbn [recv_loop];
  destruct (Z.ltb_spec pos len); (lia || reflexivity).
Qed.

Lemma recv_loop_full r rs i e buf pos len fx h :
  0 < len - pos <= r -> len - pos <= Z.of_nat (List.length i) ->
  recv_loop (r :: rs) i e buf pos len fx h =
  let buf' := store buf pos (firstn (Z.to_nat (len - pos)) i) in
  let '(len', fix') :=
    if len =? FRAME_HEADER_LEN then
      ((if fx <? 0 then len + data_length (decode buf') else len + fx), 0)
    else (len, fx) in
  recv_loop rs (skipn (Z.to_nat (len - pos)) i) e buf' len len' fix' h.
Proof.
  intros Hr Hi. cbn [recv_loop].
  destruct (Z.ltb_spec pos len); [| lia].
  cbn [waitRead]. rewrite read_result_full by lia.
  destruct (Z.ltb_spec 0 (len - pos)); [| lia].
  destruct (Z.ltb_spec (len - pos) 0); [lia |].
  destruct (Z.eqb_spec (len - pos) 0); [lia |].
  replace (pos + (len - pos)) with len by lia.
  reflexivity.
Qed.

Lemma send_loop_full w ws o e buf pos len h :
  0 < len - pos <= w ->
  send_loop (w :: ws) o e buf pos len h
  = send_loop ws (o ++ firstn (Z.to_nat (len - pos)) (skipn (Z.to_nat pos) buf))
      e buf len len h.
Proof.
  intros Hw. cbn [send_loop].
  destruct (Z.ltb_spec pos len); [| lia].
  cbn [waitWrite]. rewrite write_result_full by lia.
  destruct (Z.ltb_spec 0 (len - pos)); [| lia].
  destruct (Z.ltb_spec (len - pos) 0); [lia |].
  destruct (Z.eqb_spec (len - pos) 0); [lia |].
  replace (pos + (len - pos)) with len by lia.
  reflexivity.
Qed.

Lemma store_app_header (buf hdr payload : list Z) :
  List.length hdr = Z.to_nat FRAME_HEADER_LEN ->
  store (store buf 0 hdr) FRAME_HEADER_LEN payload
  = hdr ++ payload ++ skipn (Z.to_nat FRAME_HEADER_LEN + List.length payload) buf.
Proof.
  intros Hh. unfold store. cbn [firstn app]. change (Z.to_nat 0) with 0%nat.
  cbn [firstn app]. rewrite Hh.
  rewrite <- Hh at 1. rewrite firstn_app, Nat.sub_diag, firstn_O, app_nil_r.
  rewrite firstn_all. f_equal. f_equal.
  rewrite skipn_app, Hh, (skipn_all2 hdr) by lia.
  rewrite skipn_skipn. cbn [app]. f_equal. lia.
Qed.


Lemma firstn_app_length (l1 l2 : list Z) : firstn (List.length l1) (l1 ++ l2) = l1.
Proof. rewrite firstn_app, Nat.sub_diag, firstn_O, app_nil_r. apply firstn_all. Qed.

Lemma skipn_app_length (l1 l2 : list Z) : skipn (List.length l1) (l1 ++ l2) = l2.
Proof. rewrite skipn_app, skipn_all, Nat.sub_diag. reflexivity. Qed.

(** On a link whose write and read events accept everything at once and
    whose device answers with the sync byte, a header echoing the command
    and the expected payload, [sendReceiveFrame] returns 0, leaves the
    header and payload in the buffer, sends the sync byte and the frame
    prefix, and reports nothing. *)
Lemma sendReceiveFrame_clean buf sd fx ex h w1 w2 ws r1 r2 r3 rs hdr payload i o e :
  0 <= sd -> 1 <= w1 -> FRAME_HEADER_LEN + sd <= w2 -> 1 <= r1 ->
  FRAME_HEADER_LEN <= r2 ->
  List.length hdr = Z.to_nat FRAME_HEADER_LEN -> nth 0 hdr 0 = nth 0 buf 0 ->
  0 < recv_payload_len fx hdr <= r3 ->
  List.length payload = Z.to_nat (recv_payload_len fx hdr) ->
  sendReceiveFrame buf sd fx ex h
    (mkIo (w1 :: w2 :: ws) (r1 :: r2 :: r3 :: rs) (STX :: hdr ++ payload ++ i) o e)
  = ((0, hdr ++ payload
           ++ skipn (Z.to_nat (FRAME_HEADER_LEN + recv_payload_len fx hdr)) buf),
     let '(_, _, rs5, i5) := waitRead rs i 4 in
     mkIo ws rs5 i5 (o ++ [STX] ++ firstn (Z.to_nat (FRAME_HEADER_LEN + sd)) buf) e).
Proof.
  intros Hsd Hw1 Hw2 Hr1 Hr2 Hh Hc [Hn Hr3] Hp.
  assert (H9 : FRAME_HEADER_LEN = 9) by reflexivity.
  unfold sendReceiveFrame. cbn [wevs revs inp out errs waitWrite].
  rewrite write_result_full by lia.
  change (0 <? 1) with true; change (1 <? 0) with false; change (1 =? 0) with false.
  change (firstn (Z.to_nat 1) [STX]) with [STX].
  cbn beta iota zeta.
  rewrite send_loop_full by lia. rewrite send_loop_done by lia.
  cbn beta iota zeta.
  cbn [waitRead]. rewrite read_result_full by (cbn [List.length]; lia).
  change (0 <? 1) with true; change (1 <? 0) with false; change (1 =? 0) with false.
  change (Z.to_nat 1) with 1%nat. cbn [firstn skipn hd].
  rewrite Z.eqb_refl. cbn beta iota zeta. cbn [negb].
  rewrite recv_loop_full
    by (rewrite ?length_app, ?Hh; rewrite ?H9 in *; lia).
  rewrite !Z.sub_0_r, <- Hh, firstn_app_length, skipn_app_length, Z.eqb_refl.
  assert (Hd : data_length (decode (store buf 0 hdr)) = data_length (decode hdr)).
  { unfold store. change (Z.to_nat 0) with 0%nat. cbn [firstn app decode data_length].
    rewrite !app_nth1 by lia. reflexivity. }
  change (1 <? 0) with false; change (1 =? 0) with false.
  change (skipn (Z.to_nat 0) buf) with buf. cbn beta iota zeta.
  rewrite Hd.
  replace (if fx <? 0 then FRAME_HEADER_LEN + data_length (decode hdr)
           else FRAME_HEADER_LEN + fx)
    with (FRAME_HEADER_LEN + recv_payload_len fx hdr)
    by (unfold recv_payload_len; destruct (fx <? 0); reflexivity).
  cbv zeta.
  rewrite recv_loop_full
    by (rewrite ?length_app, ?Hp; lia).
  replace (FRAME_HEADER_LEN + recv_payload_len fx hdr - FRAME_HEADER_LEN)
    with (recv_payload_len fx hdr) by lia.
  rewrite <- Hp, firstn_app_length, skipn_app_length.
  destruct (Z.eqb_spec (FRAME_HEADER_LEN + recv_payload_len fx hdr) FRAME_HEADER_LEN); [lia |].
  rewrite recv_loop_done by lia.
  cbv zeta.
  destruct (waitRead rs i 4) as [[[_x _y] rs5] i5].
  rewrite (store_app_header buf hdr payload Hh).
  unfold decode at 1. cbn [command]. rewrite app_nth1 by lia.
  rewrite Hc, Z.eqb_refl. cbn [negb].
  rewrite <- app_assoc, Hp, <- Z2Nat.inj_add by (unfold FRAME_HEADER_LEN; lia).
  reflexivity.
Qed.

Lemma send_loop_errs ws o e buf pos len r ws' o' e' :
  send_loop ws o e buf pos len false = (r, ws', o', e') ->
  match r with None => e' = e | Some _ => exists m, e' = e ++ [m] end.
Proof.
  revert o pos.
  induction ws as [| w ws IH]; intros o pos Hl; cbn [send_loop] in Hl;
    destruct (pos <? len); try (inversion Hl; subst; eauto; fail).
  cbn [waitWrite] in Hl.
  destruct (write_result w (len - pos) <? 0); [inversion Hl; subst; eauto |].
  destruct (write_result w (len - pos) =? 0); [inversion Hl; subst; eauto |].
  eapply IH; exact Hl.
Qed.

Lemma recv_loop_errs rs i e buf pos len fx r rs' i' e' buf' :
  recv_loop rs i e buf pos len fx false = (r, rs', i', e', buf') ->
  match r with None => e' = e | Some _ => exists m, e' = e ++ [m] end.
Proof.
  revert i buf pos len fx.
  induction rs as [| x rs IH]; intros i buf pos len fx Hl; cbn [recv_loop] in Hl;
    destruct (pos <? len); try (inversion Hl; subst; eauto; fail).
  cbn [waitRead] in Hl.
  destruct (0 <? read_result x (len - pos) i);
    (destruct (read_result x (len - pos) i <? 0); [inversion Hl; subst; eauto |]);
    (destruct (read_result x (len - pos) i =? 0); [inversion Hl; subst; eauto |]).
  - destruct (pos + read_result x (len - pos) i =? FRAME_HEADER_LEN);
      eapply IH; exact Hl.
  - destruct (pos + read_result x (len - pos) i =? FRAME_HEADER_LEN);
      eapply IH; exact Hl.
Qed.

(** Without [hideErrors], one call of [sendReceiveFrame] adds at most
    one error line: none or only the write-sync timeout when it returns 0,
    exactly one when it returns a negative code. *)
Theorem sendReceiveFrame_error_lines buf sd fx ex s r buf' s' :
  sendReceiveFrame buf sd fx ex false s = ((r, buf'), s') ->
  (r = 0 /\ errs s' = errs s)
  \/ (r = 0 /\ errs s' = errs s ++ ["write sync timed out"%string])
  \/ (r < 0 /\ exists m, errs s' = errs s ++ [m]).
Proof.
  unfold sendReceiveFrame.
  destruct (waitWrite (wevs s) (out s) [STX] 1) as [[cnt ws1] o1].
  destruct (Z.ltb_spec cnt 0).
  { intro E; inversion E; subst; cbn [errs report]. right; right; eauto. }
  destruct (Z.eqb_spec cnt 0).
  { intro E; inversion E; subst; cbn [errs report]. right; left; auto. }
  destruct (send_loop ws1 o1 (errs s) buf 0 (FRAME_HEADER_LEN + sd) false)
    as [[[[sr |] ws2] o2] e2] eqn:Hs;
    pose proof (send_loop_errs _ _ _ _ _ _ _ _ _ _ Hs) as He; cbn iota in He.
  { intro E; inversion E; subst; cbn [errs].
    right; right. split; [eapply send_loop_abort_negative; exact Hs | exact He]. }
  subst e2.
  destruct (waitRead (revs s) (inp s) 1) as [[[c chs] rs3] i3].
  destruct (Z.ltb_spec c 0).
  { intro E; inversion E; subst; cbn [errs report]. right; right; eauto. }
  destruct (c =? 0).
  { intro E; inversion E; subst; cbn [errs report]. right; right; split; [lia | eauto]. }
  destruct (negb (hd STX chs =? STX)).
  { intro E; inversion E; subst; cbn [errs report]. right; right; split; [lia | eauto]. }
  destruct (recv_loop rs3 i3 (errs s) buf 0 FRAME_HEADER_LEN fx false)
    as [[[[[rr |] rs4] i4] e4] buf4] eqn:Hr;
    pose proof (recv_loop_errs _ _ _ _ _ _ _ _ _ _ _ _ Hr) as He; cbn iota in He.
  { intro E; inversion E; subst; cbn [errs].
    right; right. split; [eapply recv_loop_abort_negative; exact Hr | exact He]. }
  subst e4.
  destruct (waitRead rs4 i4 4) as [[[_x _y] rs5] i5].
  destruct (negb (command (decode buf4) =? command (decode buf))).
  - intro E; inversion E; subst; cbn [errs report]. right; right; split; [lia | eauto].
  - intro E; inversion E; subst; cbn [errs]. left; auto.
Qed.
Lemma sendReceiveFrame_error_lines_witness :
  let s := link 2 (answer CALC_CHECKSUM [0x34; 0x12]) [1; 9; 2; 0] in
  let res := sendReceiveFrame (encode (calcChecksum_frame 0x800 0x20)) 0 2 0 false s in
  (fst (fst res) = 0 /\ errs (snd res) = errs s)
  \/ (fst (fst res) = 0 /\ errs (snd res) = errs s ++ ["write sync timed out"%string])
  \/ (fst (fst res) < 0 /\ exists m, errs (snd res) = errs s ++ [m]).
Proof.
  intros s res.
  exact (sendReceiveFrame_error_lines (encode (calcChecksum_frame 0x800 0x20)) 0 2 0 s
           (fst (fst res)) (snd (fst res)) (snd res) eq_refl).
Defined.


Lemma firstn_add (n m : nat) (l : list Z) :
  firstn (n + m) l = firstn n l ++ firstn m (skipn n l).
Proof.
  revert l; induction n as [| n IH]; intros [| x l]; cbn; auto.
  - now rewrite firstn_nil.
  - now rewrite IH.
Qed.

Lemma write_result_bound w len : write_result w len <= len \/ write_result w len <= 0.
Proof. unfold write_result. destruct (Z.leb_spec w 0); lia. Qed.

Lemma send_loop_out ws o e buf pos len h r ws' o' e' :
  0 <= pos -> send_loop ws o e buf pos len h = (r, ws', o', e') ->
  exists k, (k <= Z.to_nat (len - pos))%nat
    /\ o' = o ++ firstn k (skipn (Z.to_nat pos) buf)
    /\ (r = None -> k = Z.to_nat (len - pos)).
Proof.
  revert o pos.
  induction ws as [| w ws IH]; intros o pos Hpos Hl; cbn [send_loop] in Hl;
    destruct (Z.ltb_spec pos len).
  - inversion Hl; subst. exists 0%nat. rewrite app_nil_r. split; [lia | split; [auto | discriminate]].
  - inversion Hl; subst. exists 0%nat. rewrite app_nil_r. split; [lia | split; [auto | intros; lia]].
  - cbn [waitWrite] in Hl.
    destruct (Z.ltb_spec (write_result w (len - pos)) 0).
    + inversion Hl; subst. exists 0%nat.
      destruct (Z.ltb_spec 0 (write_result w (len - pos))); [lia |].
      rewrite app_nil_r. split; [lia | split; [auto | discriminate]].
    + destruct (Z.eqb_spec (write_result w (len - pos)) 0).
      * inversion Hl; subst. exists 0%nat.
        destruct (Z.ltb_spec 0 (write_result w (len - pos))); [lia |].
        rewrite app_nil_r. split; [lia | split; [auto | discriminate]].
      * set (cnt := write_result w (len - pos)) in *.
        destruct (Z.ltb_spec 0 cnt); [| lia].
        assert (Hc : cnt <= len - pos)
          by (destruct (write_result_bound w (len - pos)); unfold cnt; lia).
        destruct (IH _ (pos + cnt) ltac:(lia) Hl) as (k & Hk & Ho & Hn).
        exists (Z.to_nat cnt + k)%nat.
        split; [lia | split].
        -- rewrite Ho, <- app_assoc, firstn_add, skipn_skipn.
           do 4 f_equal. lia.
        -- intros Hr. specialize (Hn Hr). lia.
  - inversion Hl; subst. exists 0%nat. rewrite app_nil_r. split; [lia | split; [auto | intros; lia]].
Qed.

Lemma waitWrite_sync ws o cnt ws' o' :
  waitWrite ws o [STX] 1 = (cnt, ws', o') ->
  (cnt <= 0 /\ o' = o) \/ (cnt = 1 /\ o' = o ++ [STX]).
Proof.
  destruct ws as [| w ws]; cbn [waitWrite]; intros E; inversion E; subst.
  - left; split; [lia | reflexivity].
  - unfold write_result. destruct (Z.leb_spec w 0).
    + left. destruct (Z.ltb_spec 0 w); [lia | split; [lia | reflexivity]].
    + right. replace (Z.min w 1) with 1 by lia. split; reflexivity.
Qed.

(** Whatever the link does, [sendReceiveFrame] only appends to the
    output a prefix of the sync byte followed by the first
    [FRAME_HEADER_LEN + sendDataLen] bytes of the buffer. *)
Theorem sendReceiveFrame_sends_prefix buf sd fx ex h s :
  exists k, out (snd (sendReceiveFrame buf sd fx ex h s))
            = out s ++ firstn k (STX :: firstn (Z.to_nat (FRAME_HEADER_LEN + sd)) buf).
Proof.
  unfold sendReceiveFrame.
  destruct (waitWrite (wevs s) (out s) [STX] 1) as [[cnt ws1] o1] eqn:Hw.
  apply waitWrite_sync in Hw.
  destruct (Z.ltb_spec cnt 0).
  { exists 0%nat. cbn [snd out firstn]. rewrite app_nil_r. destruct Hw as [[_ ->] | [? _]]; [auto | lia]. }
  destruct (Z.eqb_spec cnt 0).
  { exists 0%nat. cbn [snd out firstn]. rewrite app_nil_r. destruct Hw as [[_ ->] | [? _]]; [auto | lia]. }
  destruct Hw as [[? _] | [_ ->]]; [lia |].
  destruct (send_loop ws1 (out s ++ [STX]) (errs s) buf 0 (FRAME_HEADER_LEN + sd) h)
    as [[[sr ws2] o2] e2] eqn:Hs.
  assert (Ho : exists k, o2 = out s ++ firstn k (STX :: firstn (Z.to_nat (FRAME_HEADER_LEN + sd)) buf)).
  { destruct (send_loop_out _ _ _ _ _ _ _ _ _ _ _ (Z.le_refl 0) Hs) as (k & Hk & Ho & _).
    exists (S k). rewrite Ho, <- app_assoc. cbn [firstn app].
    rewrite firstn_firstn, Z.sub_0_r in *. do 3 f_equal. lia. }
  destruct sr as [r |]; [exact Ho |].
  destruct (waitRead (revs s) (inp s) 1) as [[[c chs] rs3] i3].
  destruct (c <? 0); [exact Ho |].
  destruct (c =? 0); [exact Ho |].
  destruct (negb (hd STX chs =? STX)); [exact Ho |].
  destruct (recv_loop rs3 i3 e2 buf 0 FRAME_HEADER_LEN fx h)
    as [[[[[rr |] rs4] i4] e4] buf4]; [exact Ho |].
  destruct (waitRead rs4 i4 4) as [[[_x _y] rs5] i5].
  destruct (negb (command (decode buf4) =? command (decode buf))); exact Ho.
Qed.

Lemma length_store buf pos bytes :
  0 <= pos -> pos + Z.of_nat (List.length bytes) <= Z.of_nat (List.length buf) ->
  List.length (store buf pos bytes) = List.length buf.
Proof.
  intros H0 H1. unfold store.
  rewrite !length_app, length_firstn, length_skipn. lia.
Qed.

Lemma read_result_bound r len i :
  0 < read_result r len i -> read_result r len i <= len
  /\ read_result r len i <= Z.of_nat (List.length i).
Proof. unfold read_result. destruct (Z.leb_spec r 0); lia. Qed.

Lemma recv_loop_length rs i e buf pos len fx h r rs' i' e' buf' :
  0 <= pos <= len -> 0 <= fx -> len + fx <= Z.of_nat (List.length buf) ->
  recv_loop rs i e buf pos len fx h = (r, rs', i', e', buf') ->
  List.length buf' = List.length buf.
Proof.
  revert i buf pos len fx.
  induction rs as [| x rs IH]; intros i buf pos len fx Hp Hf Hl E;
    cbn [recv_loop] in E; destruct (Z.ltb_spec pos len);
    try (inversion E; reflexivity).
  cbn [waitRead] in E.
  set (cnt := read_result x (len - pos) i) in *.
  destruct (Z.ltb_spec 0 cnt).
  - destruct (read_result_bound x (len - pos) i ltac:(assumption)) as [Hc1 Hc2].
    fold cnt in Hc1, Hc2.
    destruct (Z.ltb_spec cnt 0); [lia |].
    destruct (Z.eqb_spec cnt 0); [lia |].
    assert (Hs : List.length (store buf pos (firstn (Z.to_nat cnt) i)) = List.length buf).
    { apply length_store; [lia |]. rewrite length_firstn. lia. }
    rewrite <- Hs.
    destruct (pos + cnt =? FRAME_HEADER_LEN).
    + destruct (Z.ltb_spec fx 0); [lia |].
      eapply IH; [| | | exact E]; lia.
    + eapply IH; [| | | exact E]; lia.
  - destruct (Z.ltb_spec cnt 0); [inversion E; reflexivity |].
    destruct (Z.eqb_spec cnt 0); [inversion E; reflexivity |].
    lia.
Qed.

(** With a fixed receive length of at most one frame's data and a
    buffer of [FRAME_MAX_LEN] bytes, [sendReceiveFrame] returns a buffer of
    the same length: it never writes past the frame. *)
Theorem sendReceiveFrame_keeps_buffer buf sd fx ex h s r buf' s' :
  0 <= fx <= 2 * WRITE_FLASH_BLOCKSIZE ->
  List.length buf = Z.to_nat FRAME_MAX_LEN ->
  sendReceiveFrame buf sd fx ex h s = ((r, buf'), s') ->
  List.length buf' = Z.to_nat FRAME_MAX_LEN.
Proof.
  intros Hf Hl. unfold sendReceiveFrame.
  destruct (waitWrite (wevs s) (out s) [STX] 1) as [[cnt ws1] o1].
  destruct (cnt <? 0); [intro E; inversion E; subst; exact Hl |].
  destruct (cnt =? 0); [intro E; inversion E; subst; exact Hl |].
  destruct (send_loop ws1 o1 (errs s) buf 0 (FRAME_HEADER_LEN + sd) h)
    as [[[[sr |] ws2] o2] e2]; [intro E; inversion E; subst; exact Hl |].
  destruct (waitRead (revs s) (inp s) 1) as [[[c chs] rs3] i3].
  destruct (c <? 0); [intro E; inversion E; subst; exact Hl |].
  destruct (c =? 0); [intro E; inversion E; subst; exact Hl |].
  destruct (negb (hd STX chs =? STX)); [intro E; inversion E; subst; exact Hl |].
  destruct (recv_loop rs3 i3 e2 buf 0 FRAME_HEADER_LEN fx h)
    as [[[[rr rs4] i4] e4] buf4] eqn:Hr.
  assert (H4 : List.length buf4 = List.length buf).
  { eapply recv_loop_length; [| | | exact Hr];
      unfold FRAME_MAX_LEN, FRAME_HEADER_LEN, WRITE_FLASH_BLOCKSIZE in *; lia. }
  rewrite <- Hl, <- H4.
  destruct rr as [rr |]; [intro E; inversion E; subst; reflexivity |].
  destruct (waitRead rs4 i4 4) as [[[_x _y] rs5] i5].
  destruct (negb (command (decode buf4) =? command (decode buf)));
    intro E; inversion E; subst; reflexivity.
Qed.
Lemma sendReceiveFrame_keeps_buffer_witness :
  let s := link 2 (answer CALC_CHECKSUM [0x34; 0x12]) [1; 9; 2; 0] in
  let res := sendReceiveFrame (encode (calcChecksum_frame 0x800 0x20)) 0 2 0 false s in
  List.length (snd (fst res)) = Z.to_nat FRAME_MAX_LEN.
Proof.
  intros s res.
  apply (sendReceiveFrame_keeps_buffer (encode (calcChecksum_frame 0x800 0x20)) 0 2 0 false s
           (fst (fst res)) (snd (fst res)) (snd res)); concrete_hyp.
Defined.


Lemma exchange_clean f sd fx ex h w1 w2 ws r1 r2 r3 rs hdr payload i o e :
  0 <= sd -> 1 <= w1 -> FRAME_HEADER_LEN + sd <= w2 -> 1 <= r1 ->
  FRAME_HEADER_LEN <= r2 ->
  List.length hdr = Z.to_nat FRAME_HEADER_LEN -> nth 0 hdr 0 = command f ->
  0 < recv_payload_len fx hdr <= r3 ->
  List.length payload = Z.to_nat (recv_payload_len fx hdr) ->
  exists s', exchange f sd fx ex h
    (mkIo (w1 :: w2 :: ws) (r1 :: r2 :: r3 :: rs) (STX :: hdr ++ payload ++ i) o e)
  = ((0, decode (hdr ++ payload ++ skipn (Z.to_nat (FRAME_HEADER_LEN + recv_payload_len fx hdr))
                                    (encode f))), s')
  /\ out s' = o ++ [STX] ++ firstn (Z.to_nat (FRAME_HEADER_LEN + sd)) (encode f)
  /\ errs s' = e.
Proof.
  intros Hsd Hw1 Hw2 Hr1 Hr2 Hh Hc Hn Hp.
  unfold exchange.
  rewrite (sendReceiveFrame_clean (encode f) sd fx ex h w1 w2 ws r1 r2 r3 rs hdr payload i o e)
    by assumption.
  destruct (waitRead rs i 4) as [[[_x _y] rs5] i5].
  eexists; split; [reflexivity | split; reflexivity].
Qed.

Lemma data_decode_answer hdr rest :
  List.length hdr = Z.to_nat FRAME_HEADER_LEN ->
  data (decode (hdr ++ rest)) = firstn (Z.to_nat (2 * WRITE_FLASH_BLOCKSIZE)) rest.
Proof.
  intros Hh. unfold decode. cbn [data]. rewrite <- Hh, skipn_app_length. reflexivity.
Qed.

(** On a clean link answering [CALC_CHECKSUM] with two bytes,
    [calcChecksum] returns them as a little-endian 16-bit value, sends the
    sync byte and a header carrying the length modulo 65536 and the
    address, and reports nothing. *)
Theorem calcChecksum_clean address len w1 w2 ws r1 r2 r3 rs hdr lo hi i o e :
  1 <= w1 -> FRAME_HEADER_LEN <= w2 -> 1 <= r1 -> FRAME_HEADER_LEN <= r2 -> 2 <= r3 ->
  List.length hdr = Z.to_nat FRAME_HEADER_LEN -> nth 0 hdr 0 = CALC_CHECKSUM ->
  let x := calcChecksum address len
             (mkIo (w1 :: w2 :: ws) (r1 :: r2 :: r3 :: rs) (STX :: hdr ++ [lo; hi] ++ i) o e) in
  fst x = Z.lor lo (Z.shiftl hi 8)
  /\ out (snd x) = o ++ [STX; CALC_CHECKSUM; Z.land (len mod 65536) 0xff;
                         Z.shiftr (len mod 65536) 8; 0; 0;
                         Z.land address 0xff; Z.land (Z.shiftr address 8) 0xff; 0; 0]
  /\ errs (snd x) = e.
Proof.
  intros Hw1 Hw2 Hr1 Hr2 Hr3 Hh Hc x. subst x.
  destruct (exchange_clean (calcChecksum_frame address len) 0 2 (len * 30) false
              w1 w2 ws r1 r2 r3 rs hdr [lo; hi] i o e)
    as (s' & E & Ho & He);
    try (unfold recv_payload_len, FRAME_HEADER_LEN in *; cbn; lia); try assumption.
  unfold calcChecksum, bind. rewrite E. cbn [ret fst snd].
  rewrite data_decode_answer by exact Hh.
  split; [reflexivity | split; [| exact He]].
  change (negb (0 =? 0)) with false. cbn iota. unfold ret. cbn [snd]. rewrite Ho. reflexivity.
Qed.
Lemma calcChecksum_clean_witness :
  fst (calcChecksum 0x800 0x20
         (mkIo [1; 200] [1; 9; 2] (STX :: [CALC_CHECKSUM; 2; 0; 0; 0; 0; 0; 0; 0]
                                     ++ [0x34; 0x12] ++ []) [] [])) = 0x1234.
Proof.
  refine (proj1 (calcChecksum_clean 0x800 0x20 1 200 [] 1 9 2 []
                   [CALC_CHECKSUM; 2; 0; 0; 0; 0; 0; 0; 0] 0x34 0x12 [] [] []
                   _ _ _ _ _ _ _)); concrete_hyp.
Defined.


Ltac use_exchange_clean E Ho He :=
  match goal with
  | |- context [bind (exchange ?f ?sd ?fx ?ex ?h) _
        (mkIo (?w1 :: ?w2 :: ?ws) (?r1 :: ?r2 :: ?r3 :: ?rs) (STX :: ?hdr ++ ?p ++ ?i) ?o ?e)] =>
      let s' := fresh "s'" in
      destruct (exchange_clean f sd fx ex h w1 w2 ws r1 r2 r3 rs hdr p i o e)
        as (s' & E & Ho & He);
      [ .. | unfold bind; rewrite E ]
  end.

(** On a clean link answering [READ_CONFIG] with [len] bytes,
    [readConfig] returns 0 and exactly those bytes, and reports nothing. *)
Theorem readConfig_clean address len w1 w2 ws r1 r2 r3 rs hdr payload i o e :
  1 <= w1 -> FRAME_HEADER_LEN <= w2 -> 1 <= r1 -> FRAME_HEADER_LEN <= r2 ->
  0 < len <= 2 * WRITE_FLASH_BLOCKSIZE -> len <= r3 ->
  List.length hdr = Z.to_nat FRAME_HEADER_LEN -> nth 0 hdr 0 = READ_CONFIG ->
  List.length payload = Z.to_nat len ->
  let x := readConfig address len
             (mkIo (w1 :: w2 :: ws) (r1 :: r2 :: r3 :: rs) (STX :: hdr ++ payload ++ i) o e) in
  fst x = (0, payload) /\ errs (snd x) = e.
Proof.
  intros Hw1 Hw2 Hr1 Hr2 Hl Hr3 Hh Hc Hp x. subst x. unfold readConfig.
  assert (Hn : recv_payload_len len hdr = len)
    by (unfold recv_payload_len; destruct (Z.ltb_spec len 0); lia).
  use_exchange_clean E Ho He; rewrite ?Hn; try assumption;
    try (unfold FRAME_HEADER_LEN in *; lia).
  change (negb (0 =? 0)) with false. cbn iota. unfold ret. cbn [fst snd].
  rewrite data_decode_answer by exact Hh.
  rewrite firstn_firstn, Nat.min_l by (unfold WRITE_FLASH_BLOCKSIZE in *; lia).
  rewrite <- Hp, firstn_app_length. split; [reflexivity | exact He].
Qed.
Lemma readConfig_clean_witness :
  fst (readConfig 0 2
         (mkIo [1; 200] [1; 9; 2] (STX :: [READ_CONFIG; 2; 0; 0; 0; 0; 0; 0; 0]
                                     ++ [7; 8] ++ []) [] [])) = (0, [7; 8]).
Proof.
  refine (proj1 (readConfig_clean 0 2 1 200 [] 1 9 2 []
                   [READ_CONFIG; 2; 0; 0; 0; 0; 0; 0; 0] [7; 8] [] [] []
                   _ _ _ _ _ _ _ _ _)); concrete_hyp.
Defined.


(** On a clean link answering [READ_VERSION] with 16 bytes,
    [readVersion] returns 0 when the first two bytes are the expected minor
    and major version and -1 with the line "unexpected version" otherwise. *)
Theorem readVersion_clean w1 w2 ws r1 r2 r3 rs hdr payload i o e :
  1 <= w1 -> FRAME_HEADER_LEN <= w2 -> 1 <= r1 -> FRAME_HEADER_LEN <= r2 -> 16 <= r3 ->
  List.length hdr = Z.to_nat FRAME_HEADER_LEN -> nth 0 hdr 0 = READ_VERSION ->
  List.length payload = 16%nat ->
  let ok := (nth 0 payload 0 =? MINOR_VERSION) && (nth 1 payload 0 =? MAJOR_VERSION) in
  let x := readVersion
             (mkIo (w1 :: w2 :: ws) (r1 :: r2 :: r3 :: rs) (STX :: hdr ++ payload ++ i) o e) in
  fst x = (if ok then 0 else -1)
  /\ errs (snd x) = (if ok then e else e ++ ["unexpected version"%string]).
Proof.
  intros Hw1 Hw2 Hr1 Hr2 Hr3 Hh Hc Hp ok x. subst x. unfold readVersion.
  use_exchange_clean E Ho He; try assumption;
    try (unfold recv_payload_len, FRAME_HEADER_LEN in *; cbn; lia).
  change (negb (0 =? 0)) with false. cbn iota.
  rewrite data_decode_answer by exact Hh.
  do 16 (destruct payload as [| ? payload]; [discriminate |]).
  destruct payload; [| discriminate].
  cbn [firstn app nth Z.to_nat WRITE_FLASH_BLOCKSIZE]. unfold ok. cbn [nth].
  destruct (_ =? MINOR_VERSION), (_ =? MAJOR_VERSION); cbn [negb orb andb];
    unfold eprint, ret; cbn [fst snd errs set_errs];
    (split; [reflexivity | rewrite ?He; reflexivity]).
Qed.
Lemma readVersion_clean_witness :
  fst (readVersion
         (mkIo [1; 200] [1; 9; 16] (STX :: [READ_VERSION; 16; 0; 0; 0; 0; 0; 0; 0]
                                      ++ (MINOR_VERSION :: MAJOR_VERSION :: repeat 0 14)
                                      ++ []) [] [])) = 0.
Proof.
  refine (proj1 (readVersion_clean 1 200 [] 1 9 16 []
                   [READ_VERSION; 16; 0; 0; 0; 0; 0; 0; 0]
                   (MINOR_VERSION :: MAJOR_VERSION :: repeat 0 14) [] [] []
                   _ _ _ _ _ _ _ _)); concrete_hyp.
Defined.


(** On a clean link answering [RESET_DEVICE] with status [st],
    [resetDevice] returns 0 for [COMMAND_SUCCESS] and [-st-1] otherwise. *)
Theorem resetDevice_clean w1 w2 ws r1 r2 r3 rs hdr st i o e :
  1 <= w1 -> FRAME_HEADER_LEN <= w2 -> 1 <= r1 -> FRAME_HEADER_LEN <= r2 -> 1 <= r3 ->
  List.length hdr = Z.to_nat FRAME_HEADER_LEN -> nth 0 hdr 0 = RESET_DEVICE ->
  fst (resetDevice
         (mkIo (w1 :: w2 :: ws) (r1 :: r2 :: r3 :: rs) (STX :: hdr ++ [st] ++ i) o e))
  = (if st =? COMMAND_SUCCESS then 0 else - st - 1).
Proof.
  intros Hw1 Hw2 Hr1 Hr2 Hr3 Hh Hc. unfold resetDevice.
  use_exchange_clean E Ho He; try assumption;
    try (unfold recv_payload_len, FRAME_HEADER_LEN in *; cbn; lia).
  change (negb (0 =? 0)) with false. cbn iota.
  rewrite data_decode_answer by exact Hh.
  change (Z.to_nat (2 * WRITE_FLASH_BLOCKSIZE)) with (S 63). cbn [firstn app nth].
  destruct (st =? COMMAND_SUCCESS); reflexivity.
Qed.
Lemma resetDevice_clean_witness :
  fst (resetDevice
         (mkIo [1; 200] [1; 9; 1] (STX :: [RESET_DEVICE; 1; 0; 0; 0; 0; 0; 0; 0]
                                     ++ [3] ++ []) [] [])) = -4.
Proof.
  refine (resetDevice_clean 1 200 [] 1 9 1 [] [RESET_DEVICE; 1; 0; 0; 0; 0; 0; 0; 0]
            3 [] [] [] _ _ _ _ _ _ _); concrete_hyp.
Defined.


(** On a clean link answering [READ_FLASH] with a header announcing 16
    bytes and those 16 bytes, [readFlash] returns 0 and the bytes and
    reports nothing. *)
Theorem readFlash_clean address w1 w2 ws r1 r2 r3 rs hdr payload i o e :
  1 <= w1 -> FRAME_HEADER_LEN <= w2 -> 1 <= r1 -> FRAME_HEADER_LEN <= r2 -> 16 <= r3 ->
  List.length hdr = Z.to_nat FRAME_HEADER_LEN -> nth 0 hdr 0 = READ_FLASH ->
  data_length (decode hdr) = 16 -> List.length payload = 16%nat ->
  let x := readFlash address
             (mkIo (w1 :: w2 :: ws) (r1 :: r2 :: r3 :: rs) (STX :: hdr ++ payload ++ i) o e) in
  fst x = (0, payload) /\ errs (snd x) = e.
Proof.
  intros Hw1 Hw2 Hr1 Hr2 Hr3 Hh Hc Hd Hp x. subst x. unfold readFlash.
  assert (Hn : recv_payload_len (-1) hdr = 16) by exact Hd.
  use_exchange_clean E Ho He; rewrite ?Hn; try assumption;
    try (unfold FRAME_HEADER_LEN in *; lia).
  change (negb (0 =? 0)) with false. cbn iota. unfold ret. cbn [fst snd].
  rewrite data_decode_answer by exact Hh.
  rewrite firstn_firstn. change (Nat.min 16 (Z.to_nat (2 * WRITE_FLASH_BLOCKSIZE))) with 16%nat.
  rewrite <- Hp, firstn_app_length. split; [reflexivity | exact He].
Qed.
Lemma readFlash_clean_witness :
  fst (readFlash 0x400
         (mkIo [1; 200] [1; 9; 16] (STX :: [READ_FLASH; 16; 0; 0; 0; 0; 0; 0; 0]
                                      ++ repeat 5 16 ++ []) [] [])) = (0, repeat 5 16).
Proof.
  refine (proj1 (readFlash_clean 0x400 1 200 [] 1 9 16 []
                   [READ_FLASH; 16; 0; 0; 0; 0; 0; 0; 0] (repeat 5 16) [] [] []
                   _ _ _ _ _ _ _ _ _)); concrete_hyp.
Defined.


Lemma encode_copy_prefix f len d :
  data f = copy_data len d -> 0 <= len <= 2 * WRITE_FLASH_BLOCKSIZE ->
  List.length d = Z.to_nat len ->
  firstn (Z.to_nat (FRAME_HEADER_LEN + len)) (encode f)
  = [command f; Z.land (data_length f) 0xff; Z.shiftr (data_length f) 8;
     EE_key_1 f; EE_key_2 f; address_L f; address_H f; address_U f;
     address_unused f] ++ d.
Proof.
  intros Hd Hl Hn. unfold encode. rewrite Hd.
  rewrite Z2Nat.inj_add by (unfold FRAME_HEADER_LEN; lia).
  change (Z.to_nat FRAME_HEADER_LEN) with
    (List.length [command f; Z.land (data_length f) 0xff; Z.shiftr (data_length f) 8;
     EE_key_1 f; EE_key_2 f; address_L f; address_H f; address_U f;
     address_unused f]).
  rewrite firstn_app_2. f_equal.
  unfold copy_data. rewrite <- Hn, (firstn_all d).
  rewrite firstn_app_length. reflexivity.
Qed.

Lemma small_length_bytes len :
  0 <= len <= 2 * WRITE_FLASH_BLOCKSIZE ->
  Z.land (len mod 65536) 0xff = len /\ Z.shiftr (len mod 65536) 8 = 0.
Proof.
  intros Hl. unfold WRITE_FLASH_BLOCKSIZE in Hl.
  rewrite Z.mod_small by lia.
  change 0xff with (Z.ones 8). rewrite Z.land_ones by lia.
  rewrite Z.shiftr_div_pow2 by lia.
  split; [apply Z.mod_small | apply Z.div_small]; cbn; lia.
Qed.

(** On a clean link answering [WRITE_FLASH] with status [st],
    [writeFlash] sends the sync byte, the header with the length, the
    unlock key 0x55 0xaa and the address, then the [len] data bytes; it
    returns 0 for [COMMAND_SUCCESS] and -1 otherwise, and reports nothing. *)
Theorem writeFlash_clean address len d h w1 w2 ws r1 r2 r3 rs hdr st i o e :
  1 <= w1 -> FRAME_HEADER_LEN + len <= w2 -> 1 <= r1 -> FRAME_HEADER_LEN <= r2 -> 1 <= r3 ->
  0 <= len <= 2 * WRITE_FLASH_BLOCKSIZE -> List.length d = Z.to_nat len ->
  List.length hdr = Z.to_nat FRAME_HEADER_LEN -> nth 0 hdr 0 = WRITE_FLASH ->
  let x := writeFlash address len d h
             (mkIo (w1 :: w2 :: ws) (r1 :: r2 :: r3 :: rs) (STX :: hdr ++ [st] ++ i) o e) in
  fst x = (if st =? COMMAND_SUCCESS then 0 else -1)
  /\ out (snd x) = o ++ [STX; WRITE_FLASH; len; 0; 0x55; 0xaa; Z.land address 0xff;
                         Z.land (Z.shiftr address 8) 0xff; 0; 0] ++ d
  /\ errs (snd x) = e.
Proof.
  intros Hw1 Hw2 Hr1 Hr2 Hr3 Hl Hd Hh Hc x. subst x. unfold writeFlash.
  use_exchange_clean E Ho He; try assumption;
    try (unfold recv_payload_len, FRAME_HEADER_LEN in *; cbn; lia).
  change (negb (0 =? 0)) with false. cbn iota.
  rewrite data_decode_answer by exact Hh.
  change (Z.to_nat (2 * WRITE_FLASH_BLOCKSIZE)) with (S 63). cbn [firstn app nth].
  rewrite (encode_copy_prefix (writeFlash_frame address len d) len d eq_refl Hl Hd) in Ho.
  destruct (small_length_bytes len Hl) as [H1 H2].
  cbn [command data_length EE_key_1 EE_key_2 address_L address_H address_U
       address_unused writeFlash_frame] in Ho.
  rewrite H1, H2 in Ho.
  destruct (st =? COMMAND_SUCCESS); unfold ret; cbn [negb fst snd];
    (split; [reflexivity | split; [rewrite Ho; reflexivity | exact He]]).
Qed.
Lemma writeFlash_clean_witness :
  out (snd (writeFlash 0x400 2 [0xab; 0xcd] false
              (mkIo [1; 200] [1; 9; 1] (STX :: [WRITE_FLASH; 1; 0; 0; 0; 0; 0; 0; 0]
                                          ++ [1] ++ []) [] [])))
  = [STX; WRITE_FLASH; 2; 0; 0x55; 0xaa; 0; 4; 0; 0; 0xab; 0xcd].
Proof.
  refine (proj1 (proj2 (writeFlash_clean 0x400 2 [0xab; 0xcd] false 1 200 [] 1 9 1 []
                          [WRITE_FLASH; 1; 0; 0; 0; 0; 0; 0; 0] 1 [] [] []
                          _ _ _ _ _ _ _ _ _))); concrete_hyp.
Defined.


(** On a clean link answering [WRITE_CONFIG] with status [st],
    [writeIpSettings] sends a [WRITE_CONFIG] header for 8 bytes at address 0
    followed by the configuration bytes, returns whether the status is
    [COMMAND_SUCCESS], and prints "failed" otherwise. *)
Theorem writeIpSettings_clean macip setip ip m w1 w2 ws r1 r2 r3 rs hdr st i o e :
  1 <= w1 -> FRAME_HEADER_LEN + 8 <= w2 -> 1 <= r1 -> FRAME_HEADER_LEN <= r2 -> 1 <= r3 ->
  List.length hdr = Z.to_nat FRAME_HEADER_LEN -> nth 0 hdr 0 = WRITE_CONFIG ->
  let x := writeIpSettings macip setip ip m
             (mkIo (w1 :: w2 :: ws) (r1 :: r2 :: r3 :: rs) (STX :: hdr ++ [st] ++ i) o e) in
  fst x = (st =? COMMAND_SUCCESS)
  /\ out (snd x) = o ++ [STX; WRITE_CONFIG; 8; 0; 0x55; 0xaa; 0; 0; 0; 0]
                     ++ ip_config_data macip setip ip m
  /\ errs (snd x) = (if st =? COMMAND_SUCCESS then e else e ++ ["failed"%string]).
Proof.
  intros Hw1 Hw2 Hr1 Hr2 Hr3 Hh Hc x. subst x. unfold writeIpSettings, writeConfig.
  unfold bind at 1.
  use_exchange_clean E Ho He; try assumption;
    try (unfold recv_payload_len, FRAME_HEADER_LEN in *; cbn; lia).
  change (negb (0 =? 0)) with false. cbn iota.
  rewrite data_decode_answer by exact Hh.
  change (Z.to_nat (2 * WRITE_FLASH_BLOCKSIZE)) with (S 63). cbn [firstn app nth].
  rewrite (encode_copy_prefix (writeConfig_frame 0 8 (ip_config_data macip setip ip m))
             8 (ip_config_data macip setip ip m) eq_refl) in Ho;
    [| unfold WRITE_FLASH_BLOCKSIZE; lia | reflexivity].
  destruct (st =? COMMAND_SUCCESS); unfold ret, eprint; cbn [negb fst snd errs out set_errs];
    change (negb (0 =? 0)) with false; change (negb (-1 =? 0)) with true; cbn [fst snd errs out set_errs];
    (split; [reflexivity | split; [rewrite Ho; reflexivity | rewrite He; reflexivity]]).
Qed.
Lemma writeIpSettings_clean_witness :
  errs (snd (writeIpSettings false true [192; 168; 0; 10] 24
               (mkIo [1; 200] [1; 9; 1] (STX :: [WRITE_CONFIG; 1; 0; 0; 0; 0; 0; 0; 0]
                                           ++ [2] ++ []) [] [])))
  = ["failed"%string].
Proof.
  refine (proj2 (proj2 (writeIpSettings_clean false true [192; 168; 0; 10] 24
                          1 200 [] 1 9 1 [] [WRITE_CONFIG; 1; 0; 0; 0; 0; 0; 0; 0] 2
                          [] [] [] _ _ _ _ _ _ _))); concrete_hyp.
Defined.


(** ** The checksum of the image file *)

Lemma currentAddress_start ih : currentAddress ih = startAddress ih.
Proof. destruct ih as [| [a v] r]; reflexivity. Qed.

(** [flashPic] reports success only for a file that was read, whose
    image starts at the end of the boot block and whose end address passes
    the range check. *)
Theorem flashPic_success_checks file s s' :
  flashPic file s = (true, s') ->
  exists ih endAddr, file = Some ih
    /\ startAddress ih = Some END_BOOT_BYTES /\ endAddress ih = Some endAddr
    /\ invalid_range END_BOOT_BYTES endAddr = false.
Proof.
  destruct file as [ih |]; [| discriminate].
  unfold flashPic. rewrite currentAddress_start.
  destruct (startAddress ih) as [a |] eqn:Hs; [| discriminate].
  destruct (endAddress ih) as [b |] eqn:He; [| discriminate].
  destruct (invalid_range a b) eqn:Hi; [discriminate |].
  destruct (Z.eqb_spec a END_BOOT_BYTES) as [-> | Hne]; [| discriminate].
  intros _. exists ih, b. auto.
Qed.
Lemma flashPic_success_checks_witness :
  exists ih endAddr, Some img0 = Some ih
    /\ startAddress ih = Some END_BOOT_BYTES /\ endAddress ih = Some endAddr
    /\ invalid_range END_BOOT_BYTES endAddr = false.
Proof.
  pose (s := link 8 (answer ERASE_FLASH [1] ++ answer WRITE_FLASH [1]
                     ++ answer WRITE_FLASH [1] ++ answer CALC_CHECKSUM [0x70; 0x91])
               [1; 9; 1; 0; 1; 9; 1; 0; 1; 9; 1; 0; 1; 9; 2; 0]).
  apply (flashPic_success_checks (Some img0) s (snd (flashPic (Some img0) s))).
  vm_compute. reflexivity.
Defined.


Lemma fill_block_checksum_range k pos c nextAddr blank checkSum buf c' nextAddr' blank' checkSum' :
  0 <= checkSum < 65536 ->
  fill_block k pos c nextAddr blank checkSum = (buf, c', nextAddr', blank', checkSum') ->
  0 <= checkSum' < 65536.
Proof.
  revert pos c nextAddr blank checkSum buf.
  induction k as [| k IH]; intros pos c nextAddr blank checkSum buf Hc E;
    cbn [fill_block] in E.
  - inversion E; subst; exact Hc.
  - destruct (match currentAddress c, getData c with
              | Some addr, Some v =>
                  if addr =? nextAddr then (v, incrementAddress c, false)
                  else (pad pos, c, blank)
              | _, _ => (pad pos, c, blank) end) as [[value c1] b1].
    destruct (fill_block k (pos + 1) c1 (nextAddr + 1) b1
                ((checkSum + Z.shiftl value (Z.land pos 1 * 8)) mod 65536))
      as [[[[buf1 c2] n2] b2] cs2] eqn:Hk.
    inversion E; subst.
    eapply IH; [| exact Hk]. apply Z.mod_pos_bound. lia.
Qed.

Lemma file_blocks_range n c blockStart nextAddr checkSum :
  0 <= checkSum < 65536 -> 0 <= file_blocks n c blockStart nextAddr checkSum < 65536.
Proof.
  revert c blockStart nextAddr checkSum.
  induction n as [| n IH]; intros c blockStart nextAddr checkSum Hc; cbn [file_blocks];
    [exact Hc |].
  destruct (_ && _); [| exact Hc].
  destruct (fill_block (Z.to_nat WRITE_FLASH_BLOCKSIZE) 0 c nextAddr true checkSum)
    as [[[[buf c'] n'] b] cs'] eqn:E.
  apply IH. eapply fill_block_checksum_range; [exact Hc | exact E].
Qed.

(** [calcFileChecksum] returns -1 or a 16-bit checksum; it returns a
    checksum exactly for a file that was read, whose image starts at the
    end of the boot block and whose end address passes the range check. *)
Theorem calcFileChecksum_result file :
  (0 <= calcFileChecksum file < 65536
   <-> exists ih endAddr, file = Some ih
       /\ startAddress ih = Some END_BOOT_BYTES /\ endAddress ih = Some endAddr
       /\ invalid_range END_BOOT_BYTES endAddr = false)
  /\ (calcFileChecksum file = -1 \/ 0 <= calcFileChecksum file < 65536).
Proof.
  assert (H : (calcFileChecksum file = -1
               /\ ~ exists ih endAddr, file = Some ih
                    /\ startAddress ih = Some END_BOOT_BYTES /\ endAddress ih = Some endAddr
                    /\ invalid_range END_BOOT_BYTES endAddr = false)
              \/ (0 <= calcFileChecksum file < 65536
                  /\ exists ih endAddr, file = Some ih
                    /\ startAddress ih = Some END_BOOT_BYTES /\ endAddress ih = Some endAddr
                    /\ invalid_range END_BOOT_BYTES endAddr = false)).
  { destruct file as [ih |];
      [| left; split; [reflexivity | intros (ih & b & Hf & _); discriminate]].
    unfold calcFileChecksum. rewrite currentAddress_start.
    destruct (startAddress ih) as [a |] eqn:Hs;
      [| left; split; [reflexivity | intros (ih' & b & Hf & Hs' & _); inversion Hf; subst; congruence]].
    destruct (endAddress ih) as [b |] eqn:He;
      [| left; split; [reflexivity | intros (ih' & b & Hf & _ & He' & _); inversion Hf; subst; congruence]].
    destruct (invalid_range a b) eqn:Hi.
    { left; split; [reflexivity |].
      intros (ih' & b' & Hf & Hs' & He' & Hi'); inversion Hf; subst.
      rewrite Hs' in Hs; rewrite He' in He. inversion Hs; inversion He; subst. congruence. }
    destruct (Z.eqb_spec a END_BOOT_BYTES) as [-> | Hne].
    - right. split; [apply file_blocks_range; lia | exists ih, b; auto].
    - left; split; [reflexivity |].
      intros (ih' & b' & Hf & Hs' & _); inversion Hf; subst. congruence. }
  destruct H as [[H1 H2] | [H1 H2]].
  - split; [| left; exact H1]. rewrite H1. split; [lia | intros H; contradiction].
  - split; [| right; exact H1]. split; intros; assumption.
Qed.

Lemma fill_block_next k pos c nextAddr blank checkSum buf c' nextAddr' blank' checkSum' :
  fill_block k pos c nextAddr blank checkSum = (buf, c', nextAddr', blank', checkSum') ->
  nextAddr' = nextAddr + Z.of_nat k.
Proof.
  revert pos c nextAddr blank checkSum buf.
  induction k as [| k IH]; intros pos c nextAddr blank checkSum buf E;
    cbn [fill_block] in E.
  - inversion E; lia.
  - destruct (match currentAddress c, getData c with
              | Some addr, Some v =>
                  if addr =? nextAddr then (v, incrementAddress c, false)
                  else (pad pos, c, blank)
              | _, _ => (pad pos, c, blank) end) as [[value c1] b1].
    destruct (fill_block k (pos + 1) c1 (nextAddr + 1) b1 _)
      as [[[[buf1 c2] n2] b2] cs2] eqn:Hk.
    inversion E; subst. apply IH in Hk. lia.
Qed.

Lemma file_blocks_blocks_checksum n c blockStart checkSum :
  file_blocks n c blockStart blockStart checkSum
  = blocks_checksum n c blockStart blockStart checkSum END_FLASH_BYTES.
Proof.
  revert c blockStart checkSum.
  induction n as [| n IH]; intros c blockStart checkSum; [reflexivity |].
  cbn [file_blocks blocks_checksum]. rewrite andb_diag.
  destruct (blockStart <? END_FLASH_BYTES); [| reflexivity].
  destruct (fill_block (Z.to_nat WRITE_FLASH_BLOCKSIZE) 0 c blockStart true checkSum)
    as [[[[buf c'] n'] b] cs'] eqn:E.
  apply fill_block_next in E. subst n'. apply IH.
Qed.

(** For a valid image, [calcFileChecksum] is the block checksum of the
    flashing sequence taken over the whole flash after the boot block, up
    to [END_FLASH_BYTES], not only up to the image's end address. *)
Theorem calcFileChecksum_whole_flash ih endAddr :
  startAddress ih = Some END_BOOT_BYTES -> endAddress ih = Some endAddr ->
  invalid_range END_BOOT_BYTES endAddr = false ->
  calcFileChecksum (Some ih)
  = blocks_checksum (block_count END_BOOT_BYTES END_FLASH_BYTES) ih
      END_BOOT_BYTES END_BOOT_BYTES 0 END_FLASH_BYTES.
Proof.
  intros Hs He Hi. unfold calcFileChecksum.
  rewrite currentAddress_start, Hs, He, Hi, Z.eqb_refl.
  apply file_blocks_blocks_checksum.
Qed.
Lemma calcFileChecksum_whole_flash_witness :
  calcFileChecksum (Some img0)
  = blocks_checksum (block_count END_BOOT_BYTES END_FLASH_BYTES) img0
      END_BOOT_BYTES END_BOOT_BYTES 0 END_FLASH_BYTES.
Proof.
  apply (calcFileChecksum_whole_flash img0 0x827); concrete_hyp.
Defined.


(** ** The IP configuration block *)

Lemma mask_bits (k : Z) : 0 <= k < 32 ->
  Z.land (Z.land (Z.lor 0 k) 0xff) 0x20 = 0 /\ Z.land (Z.land (Z.lor 0 k) 0xff) 0x1f = k
  /\ Z.land (Z.land (Z.lor 0x20 k) 0xff) 0x20 = 0x20
  /\ Z.land (Z.land (Z.lor 0x20 k) 0xff) 0x1f = k.
Proof.
  intros Hk.
  assert (k = 0 \/ k = 1 \/ k = 2 \/ k = 3 \/ k = 4 \/ k = 5 \/ k = 6 \/ k = 7 \/
          k = 8 \/ k = 9 \/ k = 10 \/ k = 11 \/ k = 12 \/ k = 13 \/ k = 14 \/ k = 15 \/
          k = 16 \/ k = 17 \/ k = 18 \/ k = 19 \/ k = 20 \/ k = 21 \/ k = 22 \/ k = 23 \/
          k = 24 \/ k = 25 \/ k = 26 \/ k = 27 \/ k = 28 \/ k = 29 \/ k = 30 \/ k = 31)
    as Hc by lia.
  repeat destruct Hc as [-> | Hc]; [.. | subst k]; vm_compute; auto.
Qed.

Lemma lor4_zero a b c d :
  (Z.lor (Z.lor (Z.lor a b) c) d =? 0) = (a =? 0) && (b =? 0) && (c =? 0) && (d =? 0).
Proof.
  apply eq_true_iff_eq. rewrite Z.eqb_eq, !andb_true_iff, !Z.eqb_eq, !Z.lor_eq_0_iff.
  tauto.
Qed.

Lemma ip_settings_config setMacFromIp a b c d m mui :
  ip_settings (ip_config_data setMacFromIp true [a; b; c; d] m) mui
  = ((if setMacFromIp then [0xae; 0xb0; 0x53; b; c; d]
      else [0xae; 0xb0; 0x53; nth 0 mui 0; nth 2 mui 0; nth 4 mui 0]),
     [a; b; c; d], Z.land m 0x1f,
     (Z.land m 0x1f =? 0x1f) || ((a =? 0) && (b =? 0) && (c =? 0) && (d =? 0))).
Proof.
  assert (Hk : 0 <= Z.land m 0x1f < 32).
  { change 0x1f with (Z.ones 5). rewrite Z.land_ones by lia.
    apply Z.mod_pos_bound. reflexivity. }
  destruct (mask_bits _ Hk) as (H1 & H2 & H3 & H4).
  unfold ip_settings, ip_config_data. cbn [nth].
  rewrite lor4_zero.
  destruct setMacFromIp.
  - change (Z.land (Z.land (Z.land 0x3f (Z.lnot 0x20)) 0xff) (Z.lnot 0x1f)) with 0.
    rewrite H1, H2. reflexivity.
  - change (Z.land 0x3f (Z.lnot 0x1f)) with 0x20.
    rewrite H3, H4. reflexivity.
Qed.

(** The IP configuration written with a static address [a.b.c.d] and
    mask [m] reads back as that address, the mask's low 5 bits, a MAC from
    the IP or from the MUI, and DHCP exactly when the mask bits are all set
    or the address is 0.0.0.0. *)
Theorem ip_settings_roundtrip setMacFromIp a b c d m mui :
  ip_settings (ip_config_data setMacFromIp true [a; b; c; d] m) mui
  = ((if setMacFromIp then [0xae; 0xb0; 0x53; b; c; d]
      else [0xae; 0xb0; 0x53; nth 0 mui 0; nth 2 mui 0; nth 4 mui 0]),
     [a; b; c; d], Z.land m 0x1f,
     (Z.land m 0x1f =? 0x1f) || ((a =? 0) && (b =? 0) && (c =? 0) && (d =? 0))).
Proof. exact (ip_settings_config setMacFromIp a b c d m mui). Qed.

(** ** Option parsing *)

Lemma skip_spaces_split s :
  exists sp, s = sp ++ skip_spaces s /\ Forall (fun c => is_space c = true) sp
  /\ (List.length (skip_spaces s) <= List.length s)%nat.
Proof.
  induction s as [| c r IH]; cbn [skip_spaces].
  - exists []. split; [reflexivity | split; [constructor | cbn; lia]].
  - destruct (is_space c) eqn:Hc.
    + destruct IH as (sp & E & F & L). exists (c :: sp).
      split; [cbn; congruence | split; [constructor; assumption | cbn; lia]].
    + exists []. split; [reflexivity | split; [constructor | lia]].
Qed.

Lemma read_digits_split s acc n v n' rest :
  read_digits s acc n = (v, n', rest) ->
  exists ds, s = ds ++ rest /\ Forall (fun c => digit_of c <> None) ds
  /\ n' = (n + List.length ds)%nat /\ (0 <= acc -> 0 <= v).
Proof.
  revert acc n. induction s as [| c r IH]; intros acc n E; cbn [read_digits] in E.
  - inversion E; subst. exists []. repeat split; [constructor | cbn; lia | auto].
  - destruct (digit_of c) as [d |] eqn:Hd.
    + assert (Hd0 : 0 <= d).
      { unfold digit_of in Hd.
        destruct (Z.leb_spec 48 (Z.of_nat (nat_of_ascii c))); cbn [andb] in Hd;
          [destruct (_ <=? 57) |]; inversion Hd; lia. }
      destruct (IH _ _ E) as (ds & E1 & F & L & P). exists (c :: ds).
      split; [cbn; congruence | split; [constructor; [congruence | assumption] |]].
      split; [cbn; lia | intros; apply P; lia].
    + inversion E; subst. exists []. repeat split; [constructor | cbn; lia | auto].
Qed.

Lemma parse_number_bounds arg minValue maxValue modulus v :
  0 <= minValue -> maxValue < modulus ->
  parse_number arg minValue maxValue modulus = Some v -> minValue <= v <= maxValue.
Proof.
  intros Hmin Hmax. unfold parse_number.
  destruct (strtoul10 arg) as [value strEnd].
  destruct (_ || _); [discriminate |].
  destruct (Z.ltb_spec value minValue); [discriminate |].
  destruct (Z.ltb_spec maxValue value); [discriminate |].
  intros E; inversion E; subst. rewrite Z.mod_small by lia. lia.
Qed.

Lemma strtoul10_cases s value strEnd :
  strtoul10 s = (value, strEnd) ->
  strEnd = s
  \/ exists sp sg ds, s = sp ++ sg ++ ds ++ strEnd
       /\ Forall (fun c => is_space c = true) sp
       /\ (sg = [] \/ sg = ["+"%char] \/ sg = ["-"%char])
       /\ ds <> [] /\ Forall (fun c => digit_of c <> None) ds.
Proof.
  unfold strtoul10.
  destruct (skip_spaces_split s) as (sp & Es & Fs & _).
  revert Es. generalize (skip_spaces s) as s1. intros s1 Es.
  assert (Hsg : exists sg s2, s1 = sg ++ s2
      /\ (sg = [] \/ sg = ["+"%char] \/ sg = ["-"%char])
      /\ snd (match s1 with
              | c :: r => if Ascii.eqb c "-" then (true, r)
                          else if Ascii.eqb c "+" then (false, r) else (false, s1)
              | [] => (false, s1)
              end) = s2).
  { destruct s1 as [| c r].
    - exists [], []. auto.
    - destruct (Ascii.eqb_spec c "-").
      + exists ["-"%char], r. subst c. auto.
      + destruct (Ascii.eqb_spec c "+").
        * exists ["+"%char], r. subst c. auto.
        * exists [], (c :: r). auto. }
  destruct Hsg as (sg & s2 & E2 & Hsg & Es2).
  destruct (match s1 with
            | c :: r => if Ascii.eqb c "-" then (true, r)
                        else if Ascii.eqb c "+" then (false, r) else (false, s1)
            | [] => (false, s1)
            end) as [neg s2'] eqn:Em.
  cbn [snd] in Es2. subst s2'.
  destruct (read_digits s2 0 0) as [[v n] rest] eqn:Er.
  destruct (read_digits_split _ _ _ _ _ _ Er) as (ds & Ed & Fd & Ln & _).
  destruct (Nat.eqb_spec n 0) as [Hn | Hn].
  - intros E; inversion E; subst. left; reflexivity.
  - intros E; inversion E; subst strEnd. right.
    exists sp, sg, ds. split; [rewrite Es, E2, Ed; reflexivity |].
    split; [exact Fs | split; [exact Hsg | split; [| exact Fd]]].
    intros ->. cbn in Ln. lia.
Qed.

(** A number accepted by [parseByte] or [parseShort] is made of
    leading white space, an optional sign and a nonempty run of decimal
    digits, with nothing after it. *)
Theorem parse_number_shape arg minValue maxValue modulus v :
  parse_number arg minValue maxValue modulus = Some v ->
  exists sp sg ds, arg = sp ++ sg ++ ds
    /\ Forall (fun c => is_space c = true) sp
    /\ (sg = [] \/ sg = ["+"%char] \/ sg = ["-"%char])
    /\ ds <> [] /\ Forall (fun c => digit_of c <> None) ds.
Proof.
  unfold parse_number.
  destruct (strtoul10 arg) as [value strEnd] eqn:E.
  destruct (Nat.eqb_spec (List.length strEnd) (List.length arg)); [discriminate |].
  destruct (Nat.eqb_spec (List.length strEnd) 0) as [H0 | H0]; [| discriminate].
  intros _. destruct (strtoul10_cases _ _ _ E) as [-> | (sp & sg & ds & Ea & R)];
    [contradiction |].
  apply length_zero_iff_nil in H0. subst strEnd. rewrite app_nil_r in Ea.
  exists sp, sg, ds. auto.
Qed.
Lemma parse_number_shape_witness :
  exists sp sg ds, list_ascii_of_string " +12" = sp ++ sg ++ ds
    /\ Forall (fun c => is_space c = true) sp
    /\ (sg = [] \/ sg = ["+"%char] \/ sg = ["-"%char])
    /\ ds <> [] /\ Forall (fun c => digit_of c <> None) ds.
Proof.
  apply (parse_number_shape (list_ascii_of_string " +12") 0 255 256 12). concrete_hyp.
Defined.


(** Leading white space does not change what [parseByte] or
    [parseShort] accept or return. *)
Theorem parse_number_leading_space c arg minValue maxValue modulus :
  is_space c = true ->
  parse_number (c :: arg) minValue maxValue modulus
  = parse_number arg minValue maxValue modulus.
Proof.
  intros Hc. unfold parse_number, strtoul10. cbn [skip_spaces]. rewrite Hc.
  destruct (skip_spaces_split arg) as (_ & _ & _ & Ls).
  revert Ls. generalize (skip_spaces arg) as s1. intros s1 Ls.
  assert (Hs2 : (List.length
      (snd (match s1 with
            | c :: r => if Ascii.eqb c "-" then (true, r)
                        else if Ascii.eqb c "+" then (false, r) else (false, s1)
            | [] => (false, s1)
            end)) <= List.length s1)%nat).
  { destruct s1 as [| c' r]; [cbn; lia |].
    destruct (Ascii.eqb c' "-"); [cbn; lia |].
    destruct (Ascii.eqb c' "+"); cbn; lia. }
  destruct (match s1 with
            | c :: r => if Ascii.eqb c "-" then (true, r)
                        else if Ascii.eqb c "+" then (false, r) else (false, s1)
            | [] => (false, s1)
            end) as [neg s2].
  cbn [snd] in Hs2.
  destruct (read_digits s2 0 0) as [[v n] rest] eqn:Er.
  destruct (read_digits_split _ _ _ _ _ _ Er) as (ds & Ed & _ & Ln & _).
  destruct (Nat.eqb_spec n 0) as [Hn | Hn].
  - rewrite !Nat.eqb_refl. reflexivity.
  - assert (Hl : (List.length rest < List.length arg)%nat).
    { rewrite Ed, length_app in Hs2. lia. }
    cbn [List.length].
    destruct (Nat.eqb_spec (List.length rest) (S (List.length arg))); [lia |].
    destruct (Nat.eqb_spec (List.length rest) (List.length arg)); [lia |].
    reflexivity.
Qed.
Lemma parse_number_leading_space_witness :
  parse_number (list_ascii_of_string " 12") 0 255 256
  = parse_number (list_ascii_of_string "12") 0 255 256.
Proof.
  apply (parse_number_leading_space " "%char (list_ascii_of_string "12") 0 255 256).
  concrete_hyp.
Defined.


(** A value accepted by [parseByte] or [parseShort] lies between the
    given minimum and maximum, when these fit the result type. *)
Theorem parse_number_range arg minValue maxValue modulus v :
  0 <= minValue -> maxValue < modulus ->
  parse_number arg minValue maxValue modulus = Some v -> minValue <= v <= maxValue.
Proof. exact (parse_number_bounds arg minValue maxValue modulus v). Qed.

Lemma split_dot_app a b :
  split_dot (a ++ "."%char :: b) = split_dot a ++ split_dot b.
Proof.
  induction a as [| c a IH]; [reflexivity |].
  cbn [app split_dot]. rewrite IH.
  destruct (Ascii.eqb c "."); [reflexivity |].
  destruct (split_dot a) as [| t ts] eqn:E.
  - destruct a; cbn in E; [discriminate |].
    destruct (Ascii.eqb a "."); [discriminate | destruct (split_dot a0); discriminate].
  - reflexivity.
Qed.
Lemma parse_number_range_witness :
  0 <= 200 <= 255.
Proof.
  apply (parse_number_range (list_ascii_of_string " 200") 0 255 256 200); concrete_hyp.
Defined.


(** The [--ip] option splits its argument with [strtok], so a doubled
    dot is read as a single one. *)
Theorem parse_ip_double_dot setDhcp a b :
  parse_ip setDhcp (a ++ "."%char :: "."%char :: b) = parse_ip setDhcp (a ++ "."%char :: b).
Proof.
  unfold parse_ip.
  rewrite !length_app. cbn [List.length].
  replace (List.length a + S (S (List.length b)) =? 0)%nat with false
    by (symmetry; apply Nat.eqb_neq; lia).
  replace (List.length a + S (List.length b) =? 0)%nat with false
    by (symmetry; apply Nat.eqb_neq; lia).
  unfold strtok_dot. rewrite !split_dot_app, !filter_app. reflexivity.
Qed.

Lemma ip_parts_bytes n parts acc bytes rest :
  Forall (fun x => 0 <= x < 256) acc ->
  ip_parts n parts acc = (bytes, rest) -> Forall (fun x => 0 <= x < 256) bytes.
Proof.
  revert parts acc. induction n as [| n IH]; intros parts acc Ha E.
  - inversion E; subst; exact Ha.
  - destruct parts as [| p ps]; cbn [ip_parts] in E; [inversion E; subst; exact Ha |].
    destruct (parseByte p 0 255) as [x |] eqn:Hp; [| inversion E; subst; exact Ha].
    apply parse_number_bounds in Hp; [| lia | lia].
    eapply IH; [| exact E].
    apply Forall_app. split; [exact Ha |]. constructor; [lia | constructor].
Qed.

Lemma parse_ip_bytes setDhcp arg ip :
  parse_ip setDhcp arg = Some ip ->
  exists a b c d, ip = [a; b; c; d] /\ Forall (fun x => 0 <= x < 256) ip
    /\ ~ (a = 0 /\ b = 0 /\ c = 0 /\ d = 0).
Proof.
  unfold parse_ip.
  destruct (_ =? 0)%nat; [discriminate |]. destruct setDhcp; [discriminate |].
  destruct (ip_parts 4 (strtok_dot arg) []) as [bytes rest] eqn:E.
  destruct (Nat.eqb_spec (List.length bytes) 4) as [Hl |]; [| discriminate].
  destruct (List.length rest =? 0)%nat; [| discriminate].
  destruct (Z.eqb_spec (fold_left Z.add bytes 0) 0) as [| Hs]; [discriminate |].
  intros H; inversion H; subst ip.
  apply ip_parts_bytes in E; [| constructor].
  do 4 (destruct bytes as [| ? bytes]; [discriminate |]).
  destruct bytes; [| discriminate].
  do 4 eexists. split; [reflexivity | split; [exact E |]].
  intros (-> & -> & -> & ->). apply Hs. reflexivity.
Qed.

(** An address accepted by the [--ip] option has exactly four bytes,
    each in 0..255, not all zero. *)
Theorem parse_ip_result setDhcp arg ip :
  parse_ip setDhcp arg = Some ip ->
  exists a b c d, ip = [a; b; c; d] /\ Forall (fun x => 0 <= x < 256) ip
    /\ ~ (a = 0 /\ b = 0 /\ c = 0 /\ d = 0).
Proof. exact (parse_ip_bytes setDhcp arg ip). Qed.

(** The address and mask accepted by the [--ip] and [--mask] options,
    written by [writeIpSettings], read back as that address and mask with
    DHCP off. *)
Theorem ip_options_static setMacFromIp argIp argMask ip m mui :
  parse_ip false argIp = Some ip -> parse_mask false argMask = Some m ->
  ip_settings (ip_config_data setMacFromIp true ip m) mui
  = ((if setMacFromIp then [0xae; 0xb0; 0x53; nth 1 ip 0; nth 2 ip 0; nth 3 ip 0]
      else [0xae; 0xb0; 0x53; nth 0 mui 0; nth 2 mui 0; nth 4 mui 0]),
     ip, m, false).
Proof.
  intros Hip Hm.
  destruct (parse_ip_bytes _ _ _ Hip) as (a & b & c & d & -> & F & Hnz).
  unfold parse_mask in Hm. cbn [orb] in Hm.
  destruct (_ =? 0)%nat; [discriminate |].
  apply parse_number_bounds in Hm; [| lia | lia].
  rewrite ip_settings_config.
  assert (Hk : Z.land m 0x1f = m).
  { change 0x1f with (Z.ones 5). rewrite Z.land_ones by lia.
    apply Z.mod_small. cbn. lia. }
  rewrite Hk. cbn [nth].
  destruct (Z.eqb_spec m 0x1f); [lia |].
  destruct (Z.eqb_spec a 0), (Z.eqb_spec b 0), (Z.eqb_spec c 0), (Z.eqb_spec d 0);
    cbn [andb orb]; try reflexivity.
  exfalso; auto.
Qed.
Lemma ip_options_static_witness :
  ip_settings (ip_config_data true true [192; 168; 0; 10] 24) [1; 2; 3; 4; 5; 6]
  = ([0xae; 0xb0; 0x53; 168; 0; 10], [192; 168; 0; 10], 24, false).
Proof.
  apply (ip_options_static true (list_ascii_of_string "192.168.0.10")
           (list_ascii_of_string "24") [192; 168; 0; 10] 24 [1; 2; 3; 4; 5; 6]);
    concrete_hyp.
Defined.

Lemma parse_ip_result_witness :
  exists a b c d, [10; 0; 0; 1] = [a; b; c; d]
    /\ Forall (fun x => 0 <= x < 256) [10; 0; 0; 1]
    /\ ~ (a = 0 /\ b = 0 /\ c = 0 /\ d = 0).
Proof.
  apply (parse_ip_result false (list_ascii_of_string "10.0.0.1") [10; 0; 0; 1]).
  concrete_hyp.
Defined.

